(** * real_time_chat_app: the client manager, the pumps and the admission
    handler of [main.go], embedded as state-passing functions.

    Go constructs are modelled as follows.
    - [*Client] is an address ([ptr]); the Client objects live in a heap
      indexed by address, so that the registry and the pumps share them.
    - [chan []byte] is the runtime's channel record: capacity, number of
      buffered values, whether the reader is parked in its receive, the
      closed flag, and the history of the values whose send completed.
    - a run-time panic (send on a closed channel, close of a closed
      channel, use of an address that holds no object) is [None].
    - [map[*Client]bool] is a [gmap ptr bool]; [range] visits the keys in an
      order the language leaves open, here the order of [map_to_list].
    - a blocking send either has its value taken at once, or parks the
      sender, or panics ([chan_send]). The manager inside [send] is followed
      send by send, with the write pumps coming to their receive
      ([send_walk], [arrive]); [send_to], [select_case] and [run] give the
      memory after the cases that the manager has finished. *)

From Stdlib Require Import Ascii String.
From stdpp Require Import gmap strings list fin_maps.

Local Open Scope string_scope.
Local Open Scope list_scope.
Local Open Scope nat_scope.

(** ** Bytes and the message envelope *)

(** [[]byte]; a nil slice and an empty slice are both the empty string. *)
Abbreviation bytes := string (only parsing).

(** [type Message struct], lines 24-28. *)
Record Message := mkMessage {
  Sender : string;
  Recipient : string;
  Content : string
}.

(** The [error] result of a library call: [None] is Go's [nil]. *)
Abbreviation error := (option string) (only parsing).

(** *** [encoding/json] on a [Message]

    The struct tags give the member names, in field order, each with
    [omitempty]. String values are quoted with the escapes of the encoder
    in its HTML-safe mode, which [json.Marshal] uses: the quote, the
    backslash, the control characters and [<], [>], [&] are escaped; a
    well-formed multi-byte sequence is copied, except U+2028 and U+2029,
    which are escaped; a byte that begins or continues no well-formed
    sequence is written as the escape of U+FFFD. The control characters
    other than newline, return and tab are written [\u00XX], as the
    encoder did up to Go 1.21 (later ones write [\b] and [\f] for 8 and
    12). *)

Definition dquote : ascii := ascii_of_nat 34.
Definition backslash : ascii := ascii_of_nat 92.

Definition hex_digit (n : nat) : ascii :=
  if n <? 10 then ascii_of_nat (48 + n) else ascii_of_nat (87 + n).

Definition u00 (n : nat) : string :=
  String backslash
    ("u00" +:+ String (hex_digit (n / 16)) (String (hex_digit (n mod 16)) EmptyString)).

(** A byte below 128. *)
Definition escape_byte (a : ascii) : string :=
  let n := nat_of_ascii a in
  if n =? 34 then String backslash (String dquote EmptyString)
  else if n =? 92 then String backslash (String backslash EmptyString)
  else if n =? 10 then String backslash "n"
  else if n =? 13 then String backslash "r"
  else if n =? 9 then String backslash "t"
  else if n <? 32 then u00 n
  else if (n =? 60) || (n =? 62) || (n =? 38) then u00 n
  else String a EmptyString.

Definition between (lo hi n : nat) : bool := (lo <=? n) && (n <=? hi).

(** The first byte of a multi-byte sequence: the length of the sequence and
    the range in which its second byte must lie; [None] for a byte that
    begins no sequence. The later bytes lie in 128..191. *)
Definition lead (n : nat) : option (nat * nat * nat) :=
  if between 194 223 n then Some (2, 128, 191)
  else if n =? 224 then Some (3, 160, 191)
  else if between 225 236 n then Some (3, 128, 191)
  else if n =? 237 then Some (3, 128, 159)
  else if between 238 239 n then Some (3, 128, 191)
  else if n =? 240 then Some (4, 144, 191)
  else if between 241 243 n then Some (4, 128, 191)
  else if n =? 244 then Some (4, 128, 143)
  else None.

(** The escape of U+FFFD, written for a byte that is not UTF-8. *)
Definition replacement : string := String backslash "ufffd".

Fixpoint escape (s : string) : string :=
  match s with
  | EmptyString => EmptyString
  | String a s1 =>
      let n := nat_of_ascii a in
      if n <? 128 then escape_byte a +:+ escape s1
      else
        match lead n, s1 with
        | Some (2, lo, hi), String b s2 =>
            if between lo hi (nat_of_ascii b)
            then String a (String b (escape s2))
            else replacement +:+ escape s1
        | Some (3, lo, hi), String b (String c s3) =>
            if between lo hi (nat_of_ascii b) && between 128 191 (nat_of_ascii c)
            then
              if (n =? 226) && (nat_of_ascii b =? 128) && between 168 169 (nat_of_ascii c)
              then String backslash
                     ("u202" +:+ String (hex_digit (nat_of_ascii c - 160)) (escape s3))
              else String a (String b (String c (escape s3)))
            else replacement +:+ escape s1
        | Some (4, lo, hi), String b (String c (String d s4)) =>
            if between lo hi (nat_of_ascii b) && between 128 191 (nat_of_ascii c)
               && between 128 191 (nat_of_ascii d)
            then String a (String b (String c (String d (escape s4))))
            else replacement +:+ escape s1
        | _, _ => replacement +:+ escape s1
        end
  end.

Definition quote (s : string) : string :=
  String dquote (escape s +:+ String dquote EmptyString).

(** One [name:value] member. *)
Definition member (kv : string * string) : string :=
  quote kv.1 +:+ ":" +:+ quote kv.2.

Fixpoint join_members (ms : list string) : string :=
  match ms with
  | [] => EmptyString
  | [m] => m
  | m :: ms' => m +:+ "," +:+ join_members ms'
  end.

(** [omitempty]: a member whose string is empty is left out. *)
Definition nonempty (kv : string * string) : bool :=
  negb (String.eqb kv.2 EmptyString).

Definition json_object (kvs : list (string * string)) : string :=
  "{" +:+ join_members (member <$> List.filter nonempty kvs) +:+ "}".

Definition json_Marshal (m : Message) : bytes * error :=
  (json_object [("sender", Sender m); ("recipient", Recipient m); ("content", Content m)],
   None).

(** The two system envelopes built by the manager, lines 63 and 69. *)
Definition joined_envelope : Message :=
  mkMessage EmptyString EmptyString "/A new socket has connected.".
Definition left_envelope : Message :=
  mkMessage EmptyString EmptyString "/A socket has disconnected.".

(** ** Channels *)

Record chan := mkChan {
  dataqsiz : nat;        (* capacity given to [make] *)
  qcount : nat;          (* values buffered and not yet received *)
  recvq : bool;          (* the reader is parked in [<-c] *)
  closed : bool;
  sent : list bytes      (* every value whose send completed, oldest first *)
}.

(** [make(chan []byte, n)]; [make(chan []byte)] is [make_chan 0]. *)
Definition make_chan (n : nat) : chan := mkChan n 0 false false [].

(** The value is handed to the parked reader, which leaves the receive. *)
Definition hand_off (m : bytes) (c : chan) : chan :=
  mkChan (dataqsiz c) (qcount c) false (closed c) (sent c ++ [m]).

(** The value is put into the buffer. *)
Definition enqueue (m : bytes) (c : chan) : chan :=
  mkChan (dataqsiz c) (S (qcount c)) (recvq c) (closed c) (sent c ++ [m]).

(** Whether a send can complete without waiting. *)
Definition can_accept (c : chan) : bool :=
  recvq c || (qcount c <? dataqsiz c).

(** [select { case c <- m: ... default: ... }]: the flag tells which branch
    ran. *)
Definition chan_trysend (m : bytes) (c : chan) : option (bool * chan) :=
  if closed c then None
  else if recvq c then Some (true, hand_off m c)
  else if qcount c <? dataqsiz c then Some (true, enqueue m c)
  else Some (false, c).

(** The queue after a send that did not wait. *)
Definition accept (m : bytes) (c : chan) : chan :=
  if recvq c then hand_off m c else enqueue m c.

(** What [c <- m] does when it is executed: the value is taken at once (by
    a parked reader or by the buffer), or the sender parks in the queue and
    waits for a reader, or the send panics on a closed queue. *)
Inductive sending :=
  | Taken (c : chan)
  | Parks
  | Panics.

Definition chan_send (m : bytes) (c : chan) : sending :=
  if closed c then Panics
  else if recvq c then Taken (hand_off m c)
  else if qcount c <? dataqsiz c then Taken (enqueue m c)
  else Parks.

(** [close(c)]; a parked reader is released. *)
Definition shut (c : chan) : chan :=
  mkChan (dataqsiz c) (qcount c) false true (sent c).

Definition chan_close (c : chan) : option chan :=
  if closed c then None else Some (shut c).

(** The reader executes [<-c]: it takes a buffered value, or sees the
    closed queue, or parks. *)
Definition chan_recv (c : chan) : chan :=
  if 0 <? qcount c then mkChan (dataqsiz c) (pred (qcount c)) (recvq c) (closed c) (sent c)
  else if closed c then c
  else mkChan (dataqsiz c) (qcount c) true (closed c) (sent c).

(** ** Clients, the manager and its memory *)

(** [*Client]. *)
Abbreviation ptr := positive (only parsing).

(** [*websocket.Conn]: the connection that the upgrade returns, by its
    descriptor. What is read from it and written to it belongs to the
    websocket library; the pumps' calls on it show as their actions. *)
Abbreviation Conn := nat (only parsing).

(** [type Client struct], lines 18-22. *)
Record Client := mkClient {
  id : string;
  socket : Conn;
  send : chan
}.

Definition with_send (f : chan -> chan) (cl : Client) : Client :=
  mkClient (id cl) (socket cl) (f (send cl)).

(** Ghost record of what the manager did to its registry and to the queues,
    one entry per executed statement: [manager.clients[conn] = true],
    [delete(manager.clients, conn)], [close(conn.send)]. *)
Inductive op :=
  | OpInsert (conn : ptr)
  | OpDelete (conn : ptr)
  | OpClose (conn : ptr).

Global Instance op_eq_dec : EqDecision op.
Proof. solve_decision. Defined.

(** What the manager's loop reads and writes: [manager.clients], the Client
    objects behind the pointers, and the ghost record. *)
Record State := mkState {
  clients : gmap ptr bool;
  heap : gmap ptr Client;
  oplog : list op
}.

Definition set_client (conn : ptr) (cl : Client) (st : State) : State :=
  mkState (clients st) (<[conn := cl]> (heap st)) (oplog st).

(** The keys in the order [range] visits them. *)
Definition keys (m : gmap ptr bool) : list ptr := (map_to_list m).*1.

(** [conn.send <- message], line 42, once it has returned. Where the sender
    parks, the send returns when, and only if, the write pump of [conn]
    comes to its receive, and the pump has then taken the value. [send_to],
    and [send_range], [select_case] and [run] which are built on it, so give
    the manager's memory after the cases that it has finished; how the
    manager waits inside a case is [send_walk] and [arrive] below. *)
Definition send_to (conn : ptr) (message : bytes) (st : State) : option State :=
  cl ← heap st !! conn;
  match chan_send message (send cl) with
  | Taken c => Some (set_client conn (mkClient (id cl) (socket cl) c) st)
  | Parks => Some (set_client conn (with_send (hand_off message) cl) st)
  | Panics => None
  end.

(** [close(conn.send)] *)
Definition close_send (conn : ptr) (st : State) : option State :=
  cl ← heap st !! conn;
  c ← chan_close (send cl);
  Some (mkState (clients st) (<[conn := mkClient (id cl) (socket cl) c]> (heap st))
                (oplog st ++ [OpClose conn])).

(** [delete(manager.clients, conn)] *)
Definition delete_client (conn : ptr) (st : State) : State :=
  mkState (delete conn (clients st)) (heap st) (oplog st ++ [OpDelete conn]).

(** [manager.clients[conn] = true] *)
Definition insert_client (conn : ptr) (st : State) : State :=
  mkState (<[conn := true]> (clients st)) (heap st) (oplog st ++ [OpInsert conn]).

(** The body of the loop of [send], lines 40-44, over the keys still to
    visit. *)
Fixpoint send_range (ks : list ptr) (message : bytes) (ignore : ptr) (st : State)
  : option State :=
  match ks with
  | [] => Some st
  | conn :: ks' =>
      if decide (conn = ignore) then send_range ks' message ignore st
      else st' ← send_to conn message st; send_range ks' message ignore st'
  end.

(** [func (manager *ClientManager) send], lines 39-45. *)
Definition ClientManager_send (message : bytes) (ignore : ptr) (st : State)
  : option State :=
  send_range (keys (clients st)) message ignore st.

(** One pass of the inner select of the broadcast case, lines 74-79. *)
Definition broadcast_one (conn : ptr) (message : bytes) (st : State) : option State :=
  cl ← heap st !! conn;
  '(taken, c) ← chan_trysend message (send cl);
  if (taken : bool) then Some (set_client conn (mkClient (id cl) (socket cl) c) st)
  else st' ← close_send conn st; Some (delete_client conn st').

(** The loop of the broadcast case, lines 73-80. Only the entry being
    visited is deleted, so the keys still to visit are those of the map as
    it was when the loop began. *)
Fixpoint broadcast_range (ks : list ptr) (message : bytes) (st : State) : option State :=
  match ks with
  | [] => Some st
  | conn :: ks' => st' ← broadcast_one conn message st; broadcast_range ks' message st'
  end.

(** What arrives on the three channels of the manager. *)
Inductive event :=
  | Register (conn : ptr)
  | Unregister (conn : ptr)
  | Broadcast (message : bytes).

Section Manager.

(** The serializer: [json.Marshal] returns the bytes and an error. The
    manager and the read pump are written against this interface. *)
Variable Marshal : Message -> bytes * error.

(** One iteration of the [for]/[select] of [start], lines 60-81. The error
    of [Marshal] is bound to [_] in the source. *)
Definition select_case (ev : event) (st : State) : option State :=
  match ev with
  | Register conn =>
      let st1 := insert_client conn st in
      let jsonMessage := (Marshal joined_envelope).1 in
      ClientManager_send jsonMessage conn st1
  | Unregister conn =>
      match clients st !! conn with
      | Some _ =>
          st1 ← close_send conn st;
          let st2 := delete_client conn st1 in
          let jsonMessage := (Marshal left_envelope).1 in
          ClientManager_send jsonMessage conn st2
      | None => Some st
      end
  | Broadcast message => broadcast_range (keys (clients st)) message st
  end.

(** [func (manager *ClientManager) start]: the loop has no exit; this is
    the state after the given events have been received, in order. *)
Fixpoint ClientManager_start (evs : list event) (st : State) : option State :=
  match evs with
  | [] => Some st
  | ev :: evs' => st' ← select_case ev st; ClientManager_start evs' st'
  end.

(** ** The read pump *)

(** What a pump does to the outside: sends on the manager's channels and
    calls on its socket. *)
Inductive action :=
  | ToBroadcast (message : bytes)
  | ToUnregister (c : ptr)
  | SocketClose (s : Conn).

(** The deferred function of [read], lines 89-92. *)
Definition read_deferred (c : ptr) (self : Client) : list action :=
  [ToUnregister c; SocketClose (socket self)].

(** One pass of the loop of [read], lines 95-102, on the result of
    [ReadMessage]: the actions, and whether the loop goes on. *)
Definition read_body (c : ptr) (self : Client) (r : bytes + string)
  : list action * bool :=
  match r with
  | inr _ => ([ToUnregister c; SocketClose (socket self)], false)
  | inl message =>
      let jsonMessage := (Marshal (mkMessage (id self) EmptyString message)).1 in
      ([ToBroadcast jsonMessage], true)
  end.

(** [func (c *Client) read], lines 88-104, on the results that
    [ReadMessage] gives in turn. When they run out the pump is waiting in
    [ReadMessage]. *)
Fixpoint Client_read (c : ptr) (self : Client) (reads : list (bytes + string))
  : list action :=
  match reads with
  | [] => []
  | r :: reads' =>
      let (acts, continue) := read_body c self r in
      if continue then acts ++ Client_read c self reads'
      else acts ++ read_deferred c self
  end.

(** The events that the manager receives from a pump's actions. *)
Definition event_of (a : action) : list event :=
  match a with
  | ToBroadcast message => [Broadcast message]
  | ToUnregister c => [Unregister c]
  | SocketClose _ => []
  end.

Definition events_of (acts : list action) : list event := flat_map event_of acts.

(** ** Admission and the process *)

Inductive goroutine :=
  | GoStart
  | GoRead (c : ptr)
  | GoWrite (c : ptr).

(** [http.ResponseWriter], as far as the reply to a request goes: the
    status fixed by the first [WriteHeader], the data written, and whether
    the connection has been taken over (after which nothing can be written
    to it as a reply). *)
Record ResponseWriter := mkResponseWriter {
  rw_status : option nat;
  rw_body : list string;
  rw_hijacked : bool
}.

(** [WriteHeader]: only the first call sets the status. *)
Definition rw_WriteHeader (code : nat) (res : ResponseWriter) : ResponseWriter :=
  if rw_hijacked res then res
  else match rw_status res with
       | Some _ => res
       | None => mkResponseWriter (Some code) (rw_body res) false
       end.

(** [Write]: the data is added; with no status yet, the status is 200. *)
Definition rw_Write (data : string) (res : ResponseWriter) : ResponseWriter :=
  if rw_hijacked res then res
  else mkResponseWriter (Some (default 200 (rw_status res))) (rw_body res ++ [data]) false.

Definition newline : string := String (ascii_of_nat 10) EmptyString.

(** [http.Error] and [http.NotFound]. *)
Definition http_Error (text : string) (code : nat) (res : ResponseWriter) : ResponseWriter :=
  rw_Write (text +:+ newline) (rw_WriteHeader code res).

Definition http_NotFound (res : ResponseWriter) : ResponseWriter :=
  http_Error "404 page not found" 404 res.

Record World := mkWorld {
  mem : State;
  brk : ptr;                     (* the next address that [&Client{...}] gives *)
  goroutines : list goroutine;   (* started by [go] *)
  replies : list ResponseWriter; (* the ResponseWriters of the requests that failed *)
  console : list string          (* standard output *)
}.

(** [func wsPage], lines 129-141, on what [Upgrade] returns and the
    identifier that [uuid.NewV4] gives. [Upgrade] returns the connection,
    or an error; in the second case it has used the ResponseWriter itself
    (an error reply of its own, or the connection taken over and dropped),
    and [res] is the ResponseWriter as it left it. The send on
    [manager.register] is received by the manager's loop, which runs its
    register case. *)
Definition wsPage (upgrade : Conn + string * ResponseWriter) (uuid : string) (w : World)
  : option World :=
  match upgrade with
  | inr (_, res) =>
      Some (mkWorld (mem w) (brk w) (goroutines w) (replies w ++ [http_NotFound res])
                    (console w))
  | inl conn =>
      let client := brk w in
      let st := set_client client (mkClient uuid conn (make_chan 0)) (mem w) in
      st' ← select_case (Register client) st;
      Some (mkWorld st' (Pos.succ client)
                    (goroutines w ++ [GoRead client; GoWrite client])
                    (replies w) (console w))
  end.

(** [func main], lines 146-151, up to the listener. *)
Definition main : World :=
  mkWorld (mkState ∅ ∅ []) 1%positive [GoStart] [] ["Starting application..."].

(** What happens to the running server. *)
Inductive input :=
  | HttpWs (upgrade : Conn + string * ResponseWriter) (uuid : string)
                                          (* a request on /ws *)
  | PumpUnregister (c : ptr)              (* a read pump sends on unregister *)
  | PumpBroadcast (message : bytes)       (* a read pump sends on broadcast *)
  | PumpReceive (c : ptr).                (* a write pump executes [<-c.send], line 114 *)

Definition on_mem (f : State -> option State) (w : World) : option World :=
  st' ← f (mem w);
  Some (mkWorld st' (brk w) (goroutines w) (replies w) (console w)).

(** The write pump of [c] reaches the receive at the head of its loop. A
    pointer that is no Client has no pump. *)
Definition receive (c : ptr) (st : State) : option State :=
  match heap st !! c with
  | Some cl => Some (set_client c (with_send chan_recv cl) st)
  | None => Some st
  end.

Definition step (i : input) (w : World) : option World :=
  match i with
  | HttpWs upgrade uuid => wsPage upgrade uuid w
  | PumpUnregister c => on_mem (select_case (Unregister c)) w
  | PumpBroadcast message => on_mem (select_case (Broadcast message)) w
  | PumpReceive c => on_mem (receive c) w
  end.

Fixpoint run (ins : list input) (w : World) : option World :=
  match ins with
  | [] => Some w
  | i :: ins' => w' ← step i w; run ins' w'
  end.

End Manager.

(** ** Observations on a state *)

(** The values delivered to the outbound queue of [p] so far. *)
Definition inbox (st : State) (p : ptr) : list bytes :=
  match heap st !! p with
  | Some cl => sent (send cl)
  | None => []
  end.

(** [p] is a Client whose outbound queue is open. *)
Definition live (st : State) (p : ptr) : bool :=
  match heap st !! p with
  | Some cl => negb (closed (send cl))
  | None => false
  end.

(** [p] is a Client whose outbound queue has been closed. *)
Definition gone (st : State) (p : ptr) : bool :=
  match heap st !! p with
  | Some cl => closed (send cl)
  | None => false
  end.

(** A non-blocking send to [p] would be taken. *)
Definition accepts (st : State) (p : ptr) : bool :=
  match heap st !! p with
  | Some cl => can_accept (send cl)
  | None => false
  end.

(** Every registered pointer is a Client with an open queue. *)
Definition sound (st : State) : bool := forallb (live st) (keys (clients st)).

Fixpoint count_op (o : op) (l : list op) : nat :=
  match l with
  | [] => 0
  | x :: l' => (if decide (x = o) then 1 else 0) + count_op o l'
  end.

Definition is_insert (o : op) : bool :=
  match o with OpInsert _ => true | _ => false end.
Definition is_delete (o : op) : bool :=
  match o with OpDelete _ => true | _ => false end.

(** How many Connections the registry admitted, and how many it removed. *)
Definition admitted (st : State) : nat := length (List.filter is_insert (oplog st)).
Definition removed (st : State) : nat := length (List.filter is_delete (oplog st)).

(** The entries that the broadcast loop adds to the ghost record. *)
Definition drops (st : State) (ks : list ptr) : list op :=
  flat_map (fun p => if accepts st p then [] else [OpClose p; OpDelete p]) ks.

(** What the broadcast loop does to a registered Client. *)
Definition offer (m : bytes) (cl : Client) : Client :=
  if can_accept (send cl) then with_send (accept m) cl else with_send shut cl.

(** What a send that has returned has done to the open queue [c]: the value
    went to the reader in its receive or into the buffer, and a sender that
    had to park has returned because the reader came and took the value.
    This is no operation of the runtime; it serves to state what a finished
    [send] has done, and says nothing on whether the reader comes. *)
Definition push (m : bytes) (c : chan) : chan :=
  if recvq c then hand_off m c
  else if qcount c <? dataqsiz c then enqueue m c
  else hand_off m c.

(** What holds of the manager's memory between any two inputs, [b] being
    the next free address. *)
Record InvSt (b : ptr) (st : State) : Prop := mkInv {
  inv_brk : forall p, is_Some (heap st !! p) -> (p < b)%positive;
  inv_reg : forall p, is_Some (clients st !! p) <-> live st p = true;
  inv_ins : forall p, count_op (OpInsert p) (oplog st) =
                      match heap st !! p with Some _ => 1 | None => 0 end;
  inv_cls : forall p, count_op (OpClose p) (oplog st) = if gone st p then 1 else 0;
  inv_del : forall p, count_op (OpDelete p) (oplog st) = if gone st p then 1 else 0;
  inv_size : size (clients st) + removed st = admitted st
}.

Definition Inv (w : World) : Prop := InvSt (brk w) (mem w).

(** How many of the inputs are admissions. *)
Definition admissions (ins : list input) : nat :=
  length (List.filter (fun i => match i with HttpWs (inl _) _ => true | _ => false end) ins).

(** Three admitted Connections, the first of which is parked in its
    receive. *)
Definition room : State :=
  mkState (<[1%positive := true]> (<[2%positive := true]> (<[3%positive := true]> ∅)))
          (<[1%positive := mkClient "a" 4 (mkChan 0 0 true false [])]>
             (<[2%positive := mkClient "b" 5 (make_chan 0)]>
                (<[3%positive := mkClient "c" 6 (make_chan 0)]> ∅)))
          [OpInsert 1%positive; OpInsert 2%positive; OpInsert 3%positive].

(** ** The manager inside [send] *)

(** Where the manager's goroutine is: at the select of [start], or parked
    at line 42 on the queue of [conn], with the message it is sending, the
    Connection it leaves out and the keys that [range] has still to give. *)
Inductive control :=
  | AtSelect
  | AtSend (conn : ptr) (message : bytes) (ignore : ptr) (rest : list ptr).

(** The Connections that the manager has still to send to. *)
Definition pending (ctl : control) : list ptr :=
  match ctl with
  | AtSelect => []
  | AtSend conn _ _ rest => conn :: rest
  end.

(** The loop of [send], lines 40-44, as far as it runs without waiting:
    it ends at the select, or parked on the first queue that has neither a
    reader in its receive nor room, or in a panic. *)
Fixpoint send_walk (ks : list ptr) (message : bytes) (ignore : ptr) (st : State)
  : option (control * State) :=
  match ks with
  | [] => Some (AtSelect, st)
  | conn :: ks' =>
      if decide (conn = ignore) then send_walk ks' message ignore st
      else
        cl ← heap st !! conn;
        match chan_send message (send cl) with
        | Taken c =>
            send_walk ks' message ignore
                      (set_client conn (mkClient (id cl) (socket cl) c) st)
        | Parks => Some (AtSend conn message ignore ks', st)
        | Panics => None
        end
  end.

(** The write pump of [q] comes to the receive at the head of its loop,
    line 114. If the manager is parked on the queue of [q], the pump takes
    the value and the manager goes on with its loop; otherwise the pump
    takes a buffered value, sees the closed queue, or parks. *)
Definition arrive (q : ptr) (cfg : control * State) : option (control * State) :=
  match cfg.1 with
  | AtSend conn message ignore rest =>
      if decide (q = conn) then
        cl ← heap cfg.2 !! conn;
        send_walk rest message ignore
                  (set_client conn (with_send (hand_off message) cl) cfg.2)
      else st' ← receive q cfg.2; Some (cfg.1, st')
  | AtSelect => st' ← receive q cfg.2; Some (AtSelect, st')
  end.

Fixpoint arrivals (qs : list ptr) (cfg : control * State) : option (control * State) :=
  match qs with
  | [] => Some cfg
  | q :: qs' => cfg' ← arrive q cfg; arrivals qs' cfg'
  end.

(** The pump that the manager waits for comes to its receive, and the next
    one it then waits for, up to [n] times. *)
Fixpoint serve (n : nat) (cfg : control * State) : option (control * State) :=
  match cfg.1, n with
  | AtSend conn _ _ _, S n' => cfg' ← arrive conn cfg; serve n' cfg'
  | _, _ => Some cfg
  end.

Section Cases.

Variable Marshal : Message -> bytes * error.

(** One case of the loop of [start], lines 61-80, as far as it runs
    without waiting. The closes, the deletes and the non-blocking sends of
    the broadcast case do not wait; the announcements of the register and
    unregister cases go through [send]. *)
Definition begin_case (ev : event) (st : State) : option (control * State) :=
  match ev with
  | Register conn =>
      let st1 := insert_client conn st in
      let jsonMessage := (Marshal joined_envelope).1 in
      send_walk (keys (clients st1)) jsonMessage conn st1
  | Unregister conn =>
      match clients st !! conn with
      | Some _ =>
          st1 ← close_send conn st;
          let st2 := delete_client conn st1 in
          let jsonMessage := (Marshal left_envelope).1 in
          send_walk (keys (clients st2)) jsonMessage conn st2
      | None => Some (AtSelect, st)
      end
  | Broadcast message =>
      st' ← broadcast_range (keys (clients st)) message st; Some (AtSelect, st')
  end.

End Cases.

(** Whether [send] over [ks], leaving out [ig], has sent to [p] when the
    manager is at [ctl]. *)
Definition served (ks : list ptr) (ig : ptr) (ctl : control) (p : ptr) : bool :=
  match ctl with
  | AtSelect => bool_decide (p ∈ ks /\ p ≠ ig)
  | AtSend k _ _ rest => bool_decide (p ∈ ks /\ p ≠ ig /\ p ≠ k /\ p ∉ rest)
  end.

(** What holds while [send], begun in [st] over [ks] with [m] and [ig], is
    under way: the registry and the ghost record are as in [st], no queue
    has been closed or made, the Connections served so far have [m] added
    once to their history and no other history has changed, and a parked
    manager waits on one of [ks] with the rest of [ks] still to visit. *)
Record walking (ks : list ptr) (m : bytes) (ig : ptr) (st : State)
    (cfg : control * State) : Prop := mkWalking {
  walk_clients : clients cfg.2 = clients st;
  walk_oplog : oplog cfg.2 = oplog st;
  walk_live : forall p, live cfg.2 p = live st p;
  walk_gone : forall p, gone cfg.2 p = gone st p;
  walk_inbox : forall p,
    inbox cfg.2 p = inbox st p ++ (if served ks ig cfg.1 p then [m] else []);
  walk_control :
    match cfg.1 with
    | AtSelect => True
    | AtSend k m' ig' rest =>
        m' = m /\ ig' = ig /\ k ≠ ig /\ (k :: rest) `suffix_of` ks
    end
}.

(** The manager is parked with [p], whose queue is closed, still to visit. *)
Definition stuck_on (p : ptr) (cfg : control * State) : Prop :=
  match cfg.1 with
  | AtSelect => False
  | AtSend _ _ ig rest => p ∈ rest /\ p ≠ ig /\ live cfg.2 p = false
  end.


(** ** The write pump *)

Inductive frame := TextMessage | CloseMessage.

(** The calls of the write pump on its socket. *)
Inductive write_action :=
  | WriteMessage (s : Conn) (messageType : frame) (data : bytes)
  | CloseSocket (s : Conn).

(** [func (c *Client) write], lines 107-123, on what the receive from
    [c.send] gives in turn: a message, or [None] when the queue is closed
    ([ok] false). The source drops what [WriteMessage] returns, so a failed
    write does not stop the loop. When the results run out the pump is
    waiting in the receive. *)
Fixpoint Client_write (self : Client) (recvs : list (option bytes)) : list write_action :=
  match recvs with
  | [] => []
  | None :: _ =>
      [WriteMessage (socket self) CloseMessage EmptyString; CloseSocket (socket self)]
  | Some message :: recvs' =>
      WriteMessage (socket self) TextMessage message :: Client_write self recvs'
  end.

(** ** More observations *)

(** How a queue stands to an earlier state of itself: same capacity, the
    history only extended, a closed queue closed for good with its history
    frozen, and an unbuffered queue still without pending values. *)
Record after (c c' : chan) : Prop := mkAfter {
  after_cap : dataqsiz c' = dataqsiz c;
  after_sent : sent c `prefix_of` sent c';
  after_closed : closed c = true -> closed c' = true /\ sent c' = sent c;
  after_empty : dataqsiz c = 0 -> qcount c = 0 -> qcount c' = 0
}.

(** How an address stands to an earlier state of the heap: the Client that
    was there is there with the same identity and socket and a later queue;
    an address that was free is free or holds a Client whose queue began as
    [make(chan []byte)]. *)
Definition later (h h' : gmap ptr Client) (p : ptr) : Prop :=
  match h !! p with
  | Some cl =>
      exists c', h' !! p = Some (mkClient (id cl) (socket cl) c') /\ after (send cl) c'
  | None =>
      h' !! p = None \/
      exists uuid conn c', h' !! p = Some (mkClient uuid conn c') /\ after (make_chan 0) c'
  end.




(** Every registered Connection would take a non-blocking send. *)
Definition all_parked (st : State) : bool := forallb (accepts st) (keys (clients st)).

(** Three admitted Connections, all parked in their receive. *)
Definition hall : State :=
  mkState (<[1%positive := true]> (<[2%positive := true]> (<[3%positive := true]> ∅)))
          (<[1%positive := mkClient "a" 4 (mkChan 0 0 true false [])]>
             (<[2%positive := mkClient "b" 5 (mkChan 0 0 true false [])]>
                (<[3%positive := mkClient "c" 6 (mkChan 0 0 true false [])]> ∅)))
          [OpInsert 1%positive; OpInsert 2%positive; OpInsert 3%positive].

(** A registry that holds a Connection whose queue is closed. *)
Definition stale : State :=
  mkState (<[1%positive := true]> (<[2%positive := true]> ∅))
          (<[1%positive := mkClient "a" 4 (make_chan 0)]>
             (<[2%positive := mkClient "b" 5 (mkChan 0 0 false true [])]> ∅))
          [OpInsert 1%positive; OpInsert 2%positive; OpClose 2%positive].

(** * Lemmas *)

(** ** Channels *)

Lemma chan_send_open m c :
  closed c = false ->
  chan_send m c = Parks \/ chan_send m c = Taken (push m c).
Proof.
  unfold chan_send, push. intros ->.
  destruct (recvq c); [by right|]. destruct (qcount c <? dataqsiz c); [by right|by left].
Qed.

Lemma push_parks m c : chan_send m c = Parks -> push m c = hand_off m c.
Proof. unfold chan_send, push. by repeat case_match. Qed.

Lemma chan_trysend_open m c :
  closed c = false ->
  chan_trysend m c = Some (can_accept c, if can_accept c then accept m c else c).
Proof.
  unfold chan_trysend, can_accept, accept. intros ->.
  destruct (recvq c); [done|]. simpl. by destruct (qcount c <? dataqsiz c).
Qed.

Lemma closed_push m c : closed (push m c) = closed c.
Proof. unfold push. by repeat case_match. Qed.

Lemma closed_accept m c : closed (accept m c) = closed c.
Proof. unfold accept. by case_match. Qed.

Lemma sent_push m c : sent (push m c) = sent c ++ [m].
Proof. unfold push. by repeat case_match. Qed.

Lemma sent_accept m c : sent (accept m c) = sent c ++ [m].
Proof. unfold accept. by case_match. Qed.

Lemma closed_recv c : closed (chan_recv c) = closed c.
Proof. unfold chan_recv. by repeat case_match. Qed.

(** ** The keys of the registry *)

Lemma elem_of_keys (m : gmap positive bool) p : p ∈ keys m <-> is_Some (m !! p).
Proof.
  unfold keys. rewrite list_elem_of_fmap. split.
  - intros [[q b] [-> H]]. apply elem_of_map_to_list in H. by exists b.
  - intros [b H]. exists (p, b). split; [done|]. by apply elem_of_map_to_list.
Qed.

Lemma NoDup_keys (m : gmap positive bool) : NoDup (keys m).
Proof. apply NoDup_fst_map_to_list. Qed.


Lemma sound_spec st :
  sound st = true <-> forall p, is_Some (clients st !! p) -> live st p = true.
Proof.
  unfold sound. rewrite forallb_forall. split.
  - intros H p Hp. apply H. apply list_elem_of_In. by apply elem_of_keys.
  - intros H p Hp. apply H. apply elem_of_keys. by apply list_elem_of_In.
Qed.

Lemma send_to_open conn m st cl :
  heap st !! conn = Some cl -> closed (send cl) = false ->
  send_to conn m st = Some (set_client conn (with_send (push m) cl) st).
Proof.
  intros Hcl Hopen. unfold send_to. rewrite Hcl. simpl.
  destruct (chan_send_open m (send cl) Hopen) as [H|H]; rewrite H; [|done].
  unfold with_send. by rewrite (push_parks _ _ H).
Qed.

Lemma live_open st p :
  live st p = true -> exists cl, heap st !! p = Some cl /\ closed (send cl) = false.
Proof.
  unfold live. destruct (heap st !! p) as [cl|]; [|done].
  intros H. exists cl. split; [done|]. by destruct (closed (send cl)).
Qed.

(** ** The loop of [send] *)

Lemma send_range_spec ks m ig st :
  NoDup ks ->
  (forall p, p ∈ ks -> p ≠ ig -> live st p = true) ->
  exists h,
    send_range ks m ig st = Some (mkState (clients st) h (oplog st)) /\
    forall q, h !! q =
      if bool_decide (q ∈ ks /\ q ≠ ig) then with_send (push m) <$> heap st !! q
      else heap st !! q.
Proof.
  revert st. induction ks as [|k ks IH]; intros st Hnd Hlive.
  - exists (heap st). split; [by destruct st|]. intros q.
    rewrite bool_decide_eq_false_2; [done|]. intros [H _]. by apply elem_of_nil in H.
  - apply NoDup_cons in Hnd as [Hk Hnd]. simpl. destruct (decide (k = ig)) as [->|Hne].
    + destruct (IH st Hnd) as (h & Hrun & Hh).
      { intros p Hp. apply Hlive. by right. }
      exists h. split; [done|]. intros q. rewrite Hh.
      erewrite bool_decide_ext; [done|]. rewrite elem_of_cons. intuition congruence.
    + destruct (live_open st k) as (cl & Hcl & Hopen).
      { apply Hlive; [by left | done]. }
      rewrite (send_to_open _ _ _ _ Hcl Hopen). simpl.
      destruct (IH (set_client k (with_send (push m) cl) st) Hnd)
        as (h & Hrun & Hh).
      { intros p Hp Hpi. unfold live, set_client. simpl.
        rewrite lookup_insert_ne by (intros ->; done).
        apply Hlive; [by right | done]. }
      exists h. split; [done|]. intros q. rewrite Hh. simpl.
      destruct (decide (q = k)) as [->|Hqk].
      * rewrite lookup_insert_eq, Hcl.
        rewrite bool_decide_eq_false_2 by (intros [? _]; done).
        rewrite bool_decide_eq_true_2; [done|]. split; [by left | done].
      * rewrite lookup_insert_ne by done.
        erewrite bool_decide_ext; [done|]. rewrite elem_of_cons. intuition congruence.
Qed.

(** ** The loop of the broadcast case *)

Lemma drops_ext st st' ks :
  (forall p, p ∈ ks -> accepts st' p = accepts st p) -> drops st' ks = drops st ks.
Proof.
  induction ks as [|k ks IH]; intros H; [done|].
  unfold drops. simpl. rewrite (H k) by (by left).
  f_equal. apply IH. intros p Hp. apply H. by right.
Qed.

Lemma broadcast_one_spec k m st cl :
  heap st !! k = Some cl -> closed (send cl) = false ->
  broadcast_one k m st =
  Some (if can_accept (send cl)
        then mkState (clients st) (<[k := offer m cl]> (heap st)) (oplog st)
        else mkState (delete k (clients st)) (<[k := offer m cl]> (heap st))
                     (oplog st ++ [OpClose k; OpDelete k])).
Proof.
  intros Hcl Hopen. unfold broadcast_one, offer. rewrite Hcl. simpl.
  rewrite (chan_trysend_open _ _ Hopen). simpl.
  destruct (can_accept (send cl)); [done|].
  unfold close_send, chan_close. rewrite Hcl. simpl. rewrite Hopen. simpl.
  unfold delete_client. simpl. by rewrite <- app_assoc.
Qed.

Lemma broadcast_range_spec ks m st :
  NoDup ks ->
  (forall p, p ∈ ks -> live st p = true) ->
  exists c h,
    broadcast_range ks m st = Some (mkState c h (oplog st ++ drops st ks)) /\
    (forall q, c !! q =
       if bool_decide (q ∈ ks /\ accepts st q = false) then None else clients st !! q) /\
    (forall q, h !! q =
       if bool_decide (q ∈ ks) then offer m <$> heap st !! q else heap st !! q).
Proof.
  revert st. induction ks as [|k ks IH]; intros st Hnd Hlive.
  - exists (clients st), (heap st). split; [|split].
    + destruct st. simpl. by rewrite app_nil_r.
    + intros q. rewrite bool_decide_eq_false_2; [done|].
      intros [H _]. by apply elem_of_nil in H.
    + intros q. rewrite bool_decide_eq_false_2; [done|]. apply not_elem_of_nil.
  - apply NoDup_cons in Hnd as [Hk Hnd].
    destruct (live_open st k) as (cl & Hcl & Hopen); [apply Hlive; by left|].
    simpl. rewrite (broadcast_one_spec _ _ _ _ Hcl Hopen). simpl.
    set (st1 := if can_accept (send cl) then _ else _).
    assert (Hheap1 : heap st1 = <[k := offer m cl]> (heap st)).
    { unfold st1. by destruct (can_accept (send cl)). }
    assert (Hacc : forall p, p ∈ ks -> accepts st1 p = accepts st p).
    { intros p Hp. unfold accepts. rewrite Hheap1.
      rewrite lookup_insert_ne; [done|]. by intros ->. }
    destruct (IH st1 Hnd) as (c & h & Hrun & Hc & Hh).
    { intros p Hp. unfold live. rewrite Hheap1.
      rewrite lookup_insert_ne by (by intros ->). apply Hlive. by right. }
    exists c, h. split; [|split].
    + rewrite Hrun. do 2 f_equal. rewrite (drops_ext _ _ _ Hacc).
      change (drops st (k :: ks))
        with ((if accepts st k then [] else [OpClose k; OpDelete k]) ++ drops st ks).
      replace (accepts st k) with (can_accept (send cl))
        by (unfold accepts; by rewrite Hcl).
      unfold st1. destruct (can_accept (send cl)); simpl; [done|].
      by rewrite <- app_assoc.
    + intros q. rewrite Hc. destruct (decide (q = k)) as [->|Hqk].
      * rewrite bool_decide_eq_false_2 by (by intros [? _]).
        unfold st1, accepts. rewrite Hcl. destruct (can_accept (send cl)); simpl.
        -- rewrite bool_decide_eq_false_2; [done|]. by intros [_ ?].
        -- rewrite bool_decide_eq_true_2 by (split; [by left|done]).
           apply lookup_delete_eq.
      * assert (Hq : accepts st1 q = accepts st q).
        { unfold accepts. rewrite Hheap1. by rewrite lookup_insert_ne. }
        rewrite Hq.
        assert (Hcq : clients st1 !! q = clients st !! q).
        { unfold st1. destruct (can_accept (send cl)); simpl; [done|].
          by rewrite lookup_delete_ne. }
        rewrite Hcq. erewrite bool_decide_ext; [done|].
        rewrite elem_of_cons. intuition congruence.
    + intros q. rewrite Hh, Hheap1. destruct (decide (q = k)) as [->|Hqk].
      * rewrite lookup_insert_eq, Hcl.
        rewrite bool_decide_eq_false_2 by done.
        rewrite bool_decide_eq_true_2 by (by left). done.
      * rewrite lookup_insert_ne by done.
        erewrite bool_decide_ext; [done|]. rewrite elem_of_cons. intuition congruence.
Qed.

(** ** The three cases of the manager's loop *)

Section ManagerFacts.

Variable Marshal : Message -> bytes * error.

Lemma register_spec conn st :
  (forall p, is_Some (clients st !! p) -> p ≠ conn -> live st p = true) ->
  exists h,
    select_case Marshal (Register conn) st =
      Some (mkState (<[conn := true]> (clients st)) h (oplog st ++ [OpInsert conn])) /\
    forall q, h !! q =
      if bool_decide (is_Some (clients st !! q) /\ q ≠ conn)
      then with_send (push (Marshal joined_envelope).1) <$> heap st !! q
      else heap st !! q.
Proof.
  intros Hlive. simpl. unfold ClientManager_send.
  destruct (send_range_spec (keys (clients (insert_client conn st)))
              (Marshal joined_envelope).1 conn (insert_client conn st))
    as (h & Hrun & Hh).
  - apply NoDup_keys.
  - intros p Hp Hne. apply elem_of_keys in Hp. simpl in Hp.
    rewrite lookup_insert_ne in Hp by done. by apply Hlive.
  - exists h. split; [done|]. intros q. rewrite Hh. simpl.
    erewrite bool_decide_ext; [done|]. rewrite elem_of_keys. simpl.
    split; intros [H1 H2]; (split; [|done]).
    + by rewrite lookup_insert_ne in H1.
    + by rewrite lookup_insert_ne.
Qed.

Lemma unregister_absent conn st :
  clients st !! conn = None -> select_case Marshal (Unregister conn) st = Some st.
Proof. intros H. simpl. by rewrite H. Qed.

Lemma unregister_spec conn st :
  sound st = true ->
  is_Some (clients st !! conn) ->
  exists cl h,
    heap st !! conn = Some cl /\ closed (send cl) = false /\
    select_case Marshal (Unregister conn) st =
      Some (mkState (delete conn (clients st)) h
                    (oplog st ++ [OpClose conn; OpDelete conn])) /\
    forall q, h !! q =
      if decide (q = conn) then Some (with_send shut cl)
      else if bool_decide (is_Some (clients st !! q))
           then with_send (push (Marshal left_envelope).1) <$> heap st !! q
           else heap st !! q.
Proof.
  intros Hs Hreg. pose proof (proj1 (sound_spec st) Hs) as Hlive.
  destruct (live_open st conn (Hlive conn Hreg)) as (cl & Hcl & Hopen).
  exists cl. simpl. destruct Hreg as [b Hb]. rewrite Hb.
  unfold close_send, chan_close. rewrite Hcl. simpl. rewrite Hopen. simpl.
  unfold ClientManager_send.
  set (st2 := delete_client conn _).
  destruct (send_range_spec (keys (clients st2)) (Marshal left_envelope).1 conn st2)
    as (h & Hrun & Hh).
  - apply NoDup_keys.
  - intros p Hp Hne. apply elem_of_keys in Hp. unfold st2 in *. simpl in *.
    rewrite lookup_delete_ne in Hp by done.
    unfold live. simpl. rewrite lookup_insert_ne by done. by apply Hlive.
  - exists h. split; [done|]. split; [done|]. split.
    + rewrite Hrun. unfold st2. simpl. by rewrite <- app_assoc.
    + intros q. rewrite Hh. unfold st2. simpl. destruct (decide (q = conn)) as [->|Hne].
      * rewrite bool_decide_eq_false_2 by (by intros [_ ?]).
        apply lookup_insert_eq.
      * rewrite lookup_insert_ne by done.
        erewrite bool_decide_ext; [done|]. rewrite elem_of_keys. simpl.
        rewrite lookup_delete_ne by done. intuition.
Qed.

Lemma broadcast_spec m st :
  sound st = true ->
  exists c h,
    select_case Marshal (Broadcast m) st =
      Some (mkState c h (oplog st ++ drops st (keys (clients st)))) /\
    (forall q, c !! q =
       if bool_decide (is_Some (clients st !! q) /\ accepts st q = false) then None
       else clients st !! q) /\
    (forall q, h !! q =
       if bool_decide (is_Some (clients st !! q)) then offer m <$> heap st !! q
       else heap st !! q).
Proof.
  intros Hs. pose proof (proj1 (sound_spec st) Hs) as Hlive.
  destruct (broadcast_range_spec (keys (clients st)) m st) as (c & h & Hrun & Hc & Hh).
  - apply NoDup_keys.
  - intros p Hp. apply Hlive. by apply elem_of_keys.
  - exists c, h. split; [done|]. split; intros q.
    + rewrite Hc. erewrite bool_decide_ext; [done|]. by rewrite elem_of_keys.
    + rewrite Hh. erewrite bool_decide_ext; [done|]. by rewrite elem_of_keys.
Qed.

End ManagerFacts.

Lemma inbox_lookup st st' p (f : Client -> Client) l :
  heap st' !! p = f <$> heap st !! p ->
  (forall cl, sent (send (f cl)) = sent (send cl) ++ l) ->
  is_Some (heap st !! p) ->
  inbox st' p = inbox st p ++ l.
Proof.
  intros H Hf [cl Hcl]. unfold inbox. rewrite H, Hcl. simpl. apply Hf.
Qed.

Lemma live_allocated st p : live st p = true -> is_Some (heap st !! p).
Proof. intros H. destruct (live_open _ _ H) as (cl & -> & _). by exists cl. Qed.

Lemma sent_with_push m cl :
  sent (send (with_send (push m) cl)) = sent (send cl) ++ [m].
Proof. simpl. apply sent_push. Qed.

(** ** Counting in the ghost record *)

Lemma count_op_app o l l' : count_op o (l ++ l') = count_op o l + count_op o l'.
Proof. induction l as [|x l IH]; simpl; [done|]. rewrite IH. lia. Qed.

Lemma count_op_elem_of o l : 0 < count_op o l <-> o ∈ l.
Proof.
  induction l as [|x l IH]; simpl.
  - split; [lia | by intros ?%elem_of_nil].
  - rewrite elem_of_cons. destruct (decide (x = o)) as [->|Hne].
    + split; [by left | lia].
    + rewrite <- IH. simpl. split; [by right|]. intros [?|?]; [congruence | done].
Qed.

Lemma admitted_app c h l l' :
  admitted (mkState c h (l ++ l')) =
  admitted (mkState c h l) + length (List.filter is_insert l').
Proof. unfold admitted. simpl. by rewrite List.filter_app, length_app. Qed.

Lemma removed_app c h l l' :
  removed (mkState c h (l ++ l')) =
  removed (mkState c h l) + length (List.filter is_delete l').
Proof. unfold removed. simpl. by rewrite List.filter_app, length_app. Qed.

Lemma count_op_drops st ks o :
  NoDup ks ->
  count_op o (drops st ks) =
  match o with
  | OpInsert _ => 0
  | OpClose p | OpDelete p => if bool_decide (p ∈ ks /\ accepts st p = false) then 1 else 0
  end.
Proof.
  induction ks as [|k ks IH]; intros Hnd.
  - destruct o as [p|p|p]; [done|..];
      (rewrite bool_decide_eq_false_2; [done|]; by intros [?%elem_of_nil _]).
  - apply NoDup_cons in Hnd as [Hk Hnd].
    change (drops st (k :: ks))
      with ((if accepts st k then [] else [OpClose k; OpDelete k]) ++ drops st ks).
    rewrite count_op_app, (IH Hnd).
    destruct o as [p|p|p]; [by destruct (accepts st k)|..];
      (destruct (decide (p = k)) as [->|Hne];
       [ rewrite (bool_decide_eq_false_2 (k ∈ ks /\ _)) by (by intros [? _]);
         destruct (accepts st k) eqn:Hacc; simpl; rewrite ?decide_True by done;
         [ rewrite bool_decide_eq_false_2; [done|]; intros [_ ?]; congruence
         | rewrite bool_decide_eq_true_2; [done|]; split; [by left|done] ]
       | replace (count_op _ (if accepts st k then [] else [OpClose k; OpDelete k]))
           with 0
           by (destruct (accepts st k); simpl; rewrite ?decide_False by congruence; done);
         simpl; erewrite bool_decide_ext; [done|];
         rewrite elem_of_cons; intuition congruence ]).
Qed.

Lemma size_delete_present (m : gmap positive bool) k :
  is_Some (m !! k) -> S (size (delete k m)) = size m.
Proof.
  intros [b Hb]. rewrite <- (map_size_insert_None k b) by apply lookup_delete_eq.
  by rewrite insert_delete_eq, insert_id.
Qed.

Lemma broadcast_range_counts ks m st st' :
  NoDup ks ->
  (forall p, p ∈ ks -> is_Some (clients st !! p) /\ live st p = true) ->
  broadcast_range ks m st = Some st' ->
  size (clients st') + removed st' = size (clients st) + removed st /\
  admitted st' = admitted st.
Proof.
  revert st. induction ks as [|k ks IH]; intros st Hnd Hin Hrun.
  - simpl in Hrun. by injection Hrun as <-.
  - apply NoDup_cons in Hnd as [Hk Hnd].
    destruct (Hin k) as [Hreg Hlv]; [by left|].
    destruct (live_open st k Hlv) as (cl & Hcl & Hopen).
    simpl in Hrun. rewrite (broadcast_one_spec _ _ _ _ Hcl Hopen) in Hrun. simpl in Hrun.
    apply IH in Hrun as [Hsz Had]; [|done|].
    + rewrite Hsz, Had. destruct (can_accept (send cl)); [done|].
      destruct st as [c h l]. unfold removed, admitted. simpl in *.
      rewrite !List.filter_app, !length_app. simpl.
      rewrite <- (size_delete_present c k Hreg). lia.
    + intros p Hp. destruct (Hin p) as [Hr Hl]; [by right|].
      assert (p ≠ k) by (by intros ->).
      unfold live in *. destruct (can_accept (send cl)); simpl;
        rewrite ?lookup_delete_ne, lookup_insert_ne by done; done.
Qed.

(** ** The invariant of the server *)

Lemma status_fmap st st' p (f : Client -> Client) :
  heap st' !! p = f <$> heap st !! p ->
  (forall cl, closed (send (f cl)) = closed (send cl)) ->
  live st' p = live st p /\ gone st' p = gone st p /\
  (is_Some (heap st' !! p) <-> is_Some (heap st !! p)).
Proof.
  intros H Hf. unfold live, gone. rewrite H.
  destruct (heap st !! p) as [cl|]; simpl.
  - rewrite Hf. split; [done|]. split; [done|]. split; eauto.
  - split; [done|]. split; [done|]. split; by intros [].
Qed.

Lemma sound_of_reg st :
  (forall p, is_Some (clients st !! p) -> live st p = true) -> sound st = true.
Proof. apply sound_spec. Qed.

Lemma InvSt_sound b st : InvSt b st -> sound st = true.
Proof. intros [_ Hreg _ _ _ _]. apply sound_of_reg. intros p. apply Hreg. Qed.

(** Sends and receives change neither the registry nor the record nor
    whether a queue is closed. *)
Lemma InvSt_refresh b st h :
  InvSt b st ->
  (forall p, exists f, h !! p = f <$> heap st !! p /\
                       forall cl, closed (send (f cl)) = closed (send cl)) ->
  InvSt b (mkState (clients st) h (oplog st)).
Proof.
  intros [Hbrk Hreg Hins Hcls Hdel Hsz] Hh.
  assert (Hst : forall p,
    live (mkState (clients st) h (oplog st)) p = live st p /\
    gone (mkState (clients st) h (oplog st)) p = gone st p /\
    (is_Some (h !! p) <-> is_Some (heap st !! p))).
  { intros p. destruct (Hh p) as (f & Hf & Hc).
    exact (status_fmap st (mkState (clients st) h (oplog st)) p f Hf Hc). }
  split; simpl.
  - intros p Hp. apply Hbrk. by apply Hst.
  - intros p. rewrite (proj1 (Hst p)). apply Hreg.
  - intros p. rewrite Hins. destruct (Hh p) as (f & -> & _).
    by destruct (heap st !! p).
  - intros p. rewrite (proj1 (proj2 (Hst p))). apply Hcls.
  - intros p. rewrite (proj1 (proj2 (Hst p))). apply Hdel.
  - exact Hsz.
Qed.

(** A new Client at the next free address, entered in the registry. *)
Lemma InvSt_admit b st cl :
  InvSt b st -> closed (send cl) = false ->
  InvSt (Pos.succ b)
        (mkState (<[b := true]> (clients st)) (<[b := cl]> (heap st))
                 (oplog st ++ [OpInsert b])).
Proof.
  intros [Hbrk Hreg Hins Hcls Hdel Hsz] Hopen.
  assert (Hfree : heap st !! b = None).
  { destruct (heap st !! b) eqn:E; [|done].
    assert (b < b)%positive by (apply Hbrk; eauto). lia. }
  assert (Hnot : clients st !! b = None).
  { destruct (clients st !! b) eqn:E; [|done].
    assert (H : live st b = true) by (apply Hreg; eauto).
    unfold live in H. by rewrite Hfree in H. }
  split; simpl.
  - intros p. destruct (decide (p = b)) as [->|Hne]; [lia|].
    rewrite lookup_insert_ne by done. intros Hp%Hbrk. lia.
  - intros p. unfold live. simpl. destruct (decide (p = b)) as [->|Hne].
    + rewrite !lookup_insert_eq, Hopen. split; eauto.
    + rewrite !lookup_insert_ne by done. apply Hreg.
  - intros p. rewrite count_op_app, Hins. simpl.
    destruct (decide (p = b)) as [->|Hne].
    + rewrite lookup_insert_eq, Hfree, decide_True by done. done.
    + rewrite lookup_insert_ne, decide_False by congruence.
      destruct (heap st !! p); lia.
  - intros p. rewrite count_op_app, Hcls. simpl. unfold gone. simpl.
    destruct (decide (p = b)) as [->|Hne].
    + rewrite lookup_insert_eq, Hfree, Hopen. done.
    + rewrite lookup_insert_ne by done. lia.
  - intros p. rewrite count_op_app, Hdel. simpl. unfold gone. simpl.
    destruct (decide (p = b)) as [->|Hne].
    + rewrite lookup_insert_eq, Hfree, Hopen. done.
    + rewrite lookup_insert_ne by done. lia.
  - rewrite map_size_insert_None by done.
    unfold removed, admitted in *. simpl.
    rewrite !List.filter_app, !length_app. simpl. lia.
Qed.

(** The queue of a registered Client closed and the Client deleted. *)
Lemma InvSt_evict b st conn cl :
  InvSt b st -> is_Some (clients st !! conn) -> heap st !! conn = Some cl ->
  InvSt b (mkState (delete conn (clients st)) (<[conn := with_send shut cl]> (heap st))
                   (oplog st ++ [OpClose conn; OpDelete conn])).
Proof.
  intros [Hbrk Hreg Hins Hcls Hdel Hsz] Hin Hcl.
  assert (Hopen : closed (send cl) = false).
  { apply Hreg in Hin. unfold live in Hin. rewrite Hcl in Hin.
    by destruct (closed (send cl)). }
  split; simpl.
  - intros p. destruct (decide (p = conn)) as [->|Hne].
    + intros _. apply Hbrk. eauto.
    + rewrite lookup_insert_ne by done. apply Hbrk.
  - intros p. unfold live. simpl. destruct (decide (p = conn)) as [->|Hne].
    + rewrite lookup_delete_eq, lookup_insert_eq. simpl. split; [by intros []|done].
    + rewrite lookup_delete_ne, lookup_insert_ne by done. apply Hreg.
  - intros p. rewrite count_op_app, Hins. simpl.
    destruct (decide (p = conn)) as [->|Hne].
    + rewrite lookup_insert_eq, Hcl. done.
    + rewrite lookup_insert_ne by done. lia.
  - intros p. rewrite count_op_app, Hcls. simpl. unfold gone. simpl.
    destruct (decide (p = conn)) as [->|Hne].
    + rewrite lookup_insert_eq, Hcl, Hopen, decide_True by done. done.
    + rewrite lookup_insert_ne, decide_False by congruence. lia.
  - intros p. rewrite count_op_app, Hdel. simpl. unfold gone. simpl.
    destruct (decide (p = conn)) as [->|Hne].
    + rewrite lookup_insert_eq, Hcl, Hopen, decide_True by done. done.
    + rewrite lookup_insert_ne, decide_False by congruence. lia.
  - unfold removed, admitted in *. simpl.
    rewrite !List.filter_app, !length_app. simpl.
    rewrite <- (size_delete_present _ conn Hin) in Hsz. lia.
Qed.

Lemma fmap_same (o : option Client) : (fun cl : Client => cl) <$> o = o.
Proof. by destruct o. Qed.

Section ServerFacts.

Variable Marshal : Message -> bytes * error.

Lemma InvSt_broadcast b m st :
  InvSt b st ->
  exists st',
    select_case Marshal (Broadcast m) st = Some st' /\ InvSt b st' /\
    admitted st' = admitted st.
Proof.
  intros HI. pose proof (InvSt_sound _ _ HI) as Hs.
  destruct (broadcast_spec Marshal m st Hs) as (c & h & Hrun & Hc & Hh).
  assert (Hcount : size c + removed (mkState c h (oplog st ++ drops st (keys (clients st))))
                   = size (clients st) + removed st /\
                   admitted (mkState c h (oplog st ++ drops st (keys (clients st))))
                   = admitted st).
  { refine (broadcast_range_counts (keys (clients st)) m st
              (mkState c h (oplog st ++ drops st (keys (clients st))))
              (NoDup_keys _) _ Hrun).
    intros p Hp%elem_of_keys. split; [done|]. by apply HI. }
  destruct Hcount as [Hsz' Had'].
  destruct HI as [Hbrk Hreg Hins Hcls Hdel Hsz].
  eexists. split; [exact Hrun|]. split; [|done].
  assert (Hcases : forall p,
    (is_Some (clients st !! p) /\ exists cl, heap st !! p = Some cl /\
       closed (send cl) = false /\ accepts st p = can_accept (send cl) /\
       h !! p = Some (offer m cl) /\
       c !! p = if can_accept (send cl) then clients st !! p else None) \/
    (clients st !! p = None /\ c !! p = None /\ h !! p = heap st !! p /\
       live st p = false)).
  { intros p. destruct (clients st !! p) as [v|] eqn:E.
    - left. split; [eauto|].
      destruct (live_open st p) as (cl & Hcl & Hopen); [apply Hreg; rewrite E; eauto|].
      exists cl. rewrite Hc, Hh, E, Hcl. unfold accepts. rewrite Hcl.
      rewrite (bool_decide_eq_true_2 (is_Some (Some v))) by eauto. simpl.
      do 4 (split; [done|]). destruct (can_accept (send cl)).
      + by rewrite bool_decide_eq_false_2 by (by intros [_ ?]).
      + by rewrite bool_decide_eq_true_2 by eauto.
    - right. rewrite Hc, Hh, E.
      rewrite bool_decide_eq_false_2 by (by intros [[] _]).
      rewrite bool_decide_eq_false_2 by (by intros []).
      do 3 (split; [done|]). destruct (live st p) eqn:El; [|done].
      apply Hreg in El. rewrite E in El. by destruct El. }
  split; simpl.
  - intros p Hp. apply Hbrk.
    destruct (Hcases p) as [(_ & cl & Hcl & _)|(_ & _ & Hsame & _)];
      [rewrite Hcl; eauto | by rewrite <- Hsame].
  - intros p. unfold live. simpl.
    destruct (Hcases p) as [(Hin & cl & Hcl & Hopen & _ & -> & ->)|(_ & -> & -> & Hl)].
    + unfold offer. destruct (can_accept (send cl)); simpl.
      * rewrite closed_accept, Hopen. split; eauto.
      * split; [by intros []|done].
    + unfold live in Hl. rewrite Hl. split; [by intros []|done].
  - intros p. rewrite count_op_app, Hins, count_op_drops by apply NoDup_keys.
    destruct (Hcases p) as [(_ & cl & -> & _ & _ & -> & _)|(_ & _ & -> & _)];
      [lia | destruct (heap st !! p); lia].
  - intros p. rewrite count_op_app, Hcls, count_op_drops by apply NoDup_keys.
    unfold gone. simpl.
    destruct (Hcases p) as [(Hin & cl & Hcl & Hopen & Ha & -> & _)|(Hn & _ & -> & _)].
    + rewrite Hcl, Hopen, Ha. unfold offer. destruct (can_accept (send cl)); simpl.
      * rewrite bool_decide_eq_false_2 by (by intros [_ ?]).
        by rewrite closed_accept, Hopen.
      * rewrite bool_decide_eq_true_2; [done|]. by rewrite elem_of_keys.
    + rewrite bool_decide_eq_false_2; [lia|].
      rewrite elem_of_keys, Hn. by intros [[] _].
  - intros p. rewrite count_op_app, Hdel, count_op_drops by apply NoDup_keys.
    unfold gone. simpl.
    destruct (Hcases p) as [(Hin & cl & Hcl & Hopen & Ha & -> & _)|(Hn & _ & -> & _)].
    + rewrite Hcl, Hopen, Ha. unfold offer. destruct (can_accept (send cl)); simpl.
      * rewrite bool_decide_eq_false_2 by (by intros [_ ?]).
        by rewrite closed_accept, Hopen.
      * rewrite bool_decide_eq_true_2; [done|]. by rewrite elem_of_keys.
    + rewrite bool_decide_eq_false_2; [lia|].
      rewrite elem_of_keys, Hn. by intros [[] _].
  - simpl in Hsz', Had'. lia.
Qed.

Lemma InvSt_unregister b conn st :
  InvSt b st ->
  exists st',
    select_case Marshal (Unregister conn) st = Some st' /\ InvSt b st' /\
    admitted st' = admitted st.
Proof.
  intros HI. destruct (clients st !! conn) as [v|] eqn:E.
  - assert (Hin : is_Some (clients st !! conn)) by (rewrite E; eauto).
    destruct (unregister_spec Marshal conn st (InvSt_sound _ _ HI) Hin)
      as (cl & h & Hcl & Hopen & Hrun & Hh).
    eexists. split; [exact Hrun|]. split.
    + apply (InvSt_refresh b _ h (InvSt_evict b st conn cl HI Hin Hcl)).
      intros p. simpl. rewrite Hh. destruct (decide (p = conn)) as [->|Hne].
      * exists (fun cl => cl). rewrite lookup_insert_eq. done.
      * rewrite lookup_insert_ne by done. case_bool_decide.
        -- eexists. split; [done|]. intros c0. apply closed_push.
        -- exists (fun cl => cl). by rewrite fmap_same.
    + unfold admitted. simpl. by rewrite List.filter_app, length_app, Nat.add_0_r.
  - exists st. split; [by apply unregister_absent|done].
Qed.

Lemma InvSt_register b uuid conn st :
  InvSt b st ->
  exists st',
    select_case Marshal (Register b) (set_client b (mkClient uuid conn (make_chan 0)) st)
      = Some st' /\
    InvSt (Pos.succ b) st' /\ admitted st' = S (admitted st).
Proof.
  intros HI.
  set (cl := mkClient uuid conn (make_chan 0)).
  destruct (register_spec Marshal b (set_client b cl st)) as (h & Hrun & Hh).
  { intros p Hp Hne. unfold live. simpl. rewrite lookup_insert_ne by done.
    by apply HI. }
  eexists. split; [exact Hrun|]. split.
  - apply (InvSt_refresh (Pos.succ b) _ h (InvSt_admit b st cl HI eq_refl)).
    intros p. simpl. rewrite Hh. simpl. case_bool_decide.
    + eexists. split; [done|]. intros c0. apply closed_push.
    + exists (fun cl => cl). by rewrite fmap_same.
  - unfold admitted. simpl. rewrite List.filter_app, length_app. simpl. lia.
Qed.

Lemma InvSt_receive b c st :
  InvSt b st ->
  exists st', receive c st = Some st' /\ InvSt b st' /\ admitted st' = admitted st.
Proof.
  intros HI. unfold receive. destruct (heap st !! c) as [cl|] eqn:E.
  - eexists. split; [done|]. split; [|done].
    apply (InvSt_refresh b st _ HI). intros p.
    destruct (decide (p = c)) as [->|Hne].
    + exists (with_send chan_recv). rewrite lookup_insert_eq, E.
      split; [done|]. intros c0. apply closed_recv.
    + exists (fun cl => cl). rewrite lookup_insert_ne by done. by rewrite fmap_same.
  - by exists st.
Qed.

Lemma step_Inv i w :
  Inv w ->
  exists w',
    step Marshal i w = Some w' /\ Inv w' /\
    admitted (mem w') = admitted (mem w) + admissions [i] /\
    console w' = console w.
Proof.
  intros HI. unfold Inv in *. destruct i as [[conn|[e res]] uuid|c|m|c]; unfold step.
  - destruct (InvSt_register (brk w) uuid conn (mem w) HI) as (st' & Hrun & HI' & Had).
    unfold wsPage. cbv zeta. rewrite Hrun. eexists. split; [done|]. simpl.
    split; [done|]. split; [|done]. unfold admissions. simpl. lia.
  - eexists. split; [done|]. simpl. split; [done|]. split; [|done].
    unfold admissions. simpl. lia.
  - destruct (InvSt_unregister (brk w) c (mem w) HI) as (st' & Hrun & HI' & Had).
    unfold on_mem. rewrite Hrun. eexists. split; [done|]. simpl.
    split; [done|]. split; [|done]. unfold admissions. simpl. lia.
  - destruct (InvSt_broadcast (brk w) m (mem w) HI) as (st' & Hrun & HI' & Had).
    unfold on_mem. rewrite Hrun. eexists. split; [done|]. simpl.
    split; [done|]. split; [|done]. unfold admissions. simpl. lia.
  - destruct (InvSt_receive (brk w) c (mem w) HI) as (st' & Hrun & HI' & Had).
    unfold on_mem. rewrite Hrun. eexists. split; [done|]. simpl.
    split; [done|]. split; [|done]. unfold admissions. simpl. lia.
Qed.

Lemma run_Inv ins w :
  Inv w ->
  exists w',
    run Marshal ins w = Some w' /\ Inv w' /\
    admitted (mem w') = admitted (mem w) + admissions ins /\
    console w' = console w.
Proof.
  revert w. induction ins as [|i ins IH]; intros w HI.
  - exists w. split; [done|]. split; [done|]. unfold admissions. simpl.
    split; [lia|done].
  - destruct (step_Inv i w HI) as (w1 & Hstep & HI1 & Had1 & Hc1).
    destruct (IH w1 HI1) as (w' & Hrun & HI' & Had & Hc).
    exists w'. simpl. rewrite Hstep. simpl. split; [done|]. split; [done|].
    split; [|congruence]. rewrite Had, Had1. unfold admissions. simpl.
    destruct i as [[conn|[e res]] uuid|c|m|c]; simpl; lia.
Qed.

End ServerFacts.

Lemma Inv_main : Inv main.
Proof.
  split; simpl; try done.
  - intros p [cl H]. by rewrite lookup_empty in H.
  - intros p. unfold live. simpl. rewrite !lookup_empty. split; [by intros []|done].
Qed.

Lemma send_range_ignore ks m ig st st' :
  send_range ks m ig st = Some st' -> heap st' !! ig = heap st !! ig.
Proof.
  revert st. induction ks as [|k ks IH]; intros st H; simpl in H.
  - by injection H as <-.
  - destruct (decide (k = ig)) as [->|Hne]; [by apply IH|].
    destruct (send_to k m st) as [st1|] eqn:E; [|done]. simpl in H.
    rewrite (IH _ H). unfold send_to in E.
    destruct (heap st !! k) as [cl|]; [|done]. simpl in E.
    destruct (chan_send m (send cl)) as [c| |]; [| |done];
      injection E as <-; simpl; by rewrite lookup_insert_ne.
Qed.

Lemma ClientManager_start_cons Marshal ev evs st :
  ClientManager_start Marshal (ev :: evs) st =
  select_case Marshal ev st ≫= ClientManager_start Marshal evs.
Proof. done. Qed.

(** * The claims about the manager's loop *)

Section ManagerClaims.

Variable Marshal : Message -> bytes * error.

(** C1. On a broadcast the manager offers the message, without waiting, to
    every registered Connection, whoever sent it. A Connection that takes it
    stays registered and has the message at the end of its queue's history;
    a Connection that cannot take it has its queue closed and is removed in
    the same step, and nothing at all is delivered to it; the others get the
    message all the same. Pointers outside the registry are not touched, and
    no queue gains anything but the message, so no announcement is made. *)
Theorem C1_broadcast_fanout (message : bytes) (st : State) :
  sound st = true ->
  exists st',
    select_case Marshal (Broadcast message) st = Some st' /\
    (forall p, is_Some (clients st !! p) ->
       if accepts st p
       then is_Some (clients st' !! p) /\ gone st' p = false /\
            inbox st' p = inbox st p ++ [message]
       else clients st' !! p = None /\ gone st' p = true /\
            inbox st' p = inbox st p) /\
    (forall p, clients st !! p = None ->
       clients st' !! p = None /\ heap st' !! p = heap st !! p) /\
    (forall p, inbox st' p = inbox st p \/ inbox st' p = inbox st p ++ [message]).
Proof.
  intros Hs. destruct (broadcast_spec Marshal message st Hs) as (c & h & Hrun & Hc & Hh).
  pose proof (proj1 (sound_spec st) Hs) as Hlive.
  eexists. split; [exact Hrun|].
  set (st' := mkState c h _).
  assert (Hin : forall p, is_Some (clients st !! p) ->
            if accepts st p
            then is_Some (clients st' !! p) /\ gone st' p = false /\
                 inbox st' p = inbox st p ++ [message]
            else clients st' !! p = None /\ gone st' p = true /\
                 inbox st' p = inbox st p).
  { intros p Hp. destruct (live_open st p (Hlive p Hp)) as (cl & Hcl & Hopen).
    unfold accepts, gone, inbox. simpl.
    rewrite Hc, Hh, Hcl. rewrite (bool_decide_eq_true_2 _ Hp). simpl.
    unfold accepts, offer. rewrite Hcl.
    destruct (can_accept (send cl)) eqn:Hacc; simpl.
    + rewrite bool_decide_eq_false_2 by (by intros [_ ?]).
      rewrite closed_accept, sent_accept. done.
    + rewrite bool_decide_eq_true_2 by done. done. }
  assert (Hout : forall p, clients st !! p = None ->
            clients st' !! p = None /\ heap st' !! p = heap st !! p).
  { intros p Hp. simpl. rewrite Hc, Hh.
    rewrite bool_decide_eq_false_2 by (rewrite Hp; by intros [[] _]).
    rewrite bool_decide_eq_false_2 by (rewrite Hp; by intros []).
    done. }
  split; [exact Hin|]. split; [exact Hout|].
  intros p. destruct (clients st !! p) as [v|] eqn:E.
  - specialize (Hin p). rewrite E in Hin. specialize (Hin (mk_is_Some _ _ eq_refl)).
    destruct (accepts st p); [right|left]; apply Hin.
  - left. unfold inbox. by rewrite (proj2 (Hout p E)).
Qed.

End ManagerClaims.

(** * The claims about the server as a whole *)

Section ServerClaims.

Variable Marshal : Message -> bytes * error.

(** C4. After any inputs to the server started by [main], the run has not
    panicked, a Connection is in the registry exactly when the manager has
    admitted it and has not deleted it since, every successful upgrade is
    one admission, and the size of the registry is the number admitted less
    the number removed. *)
Theorem C4_registry_matches_history (ins : list input) :
  exists w,
    run Marshal ins main = Some w /\
    (forall p, is_Some (clients (mem w) !! p) <->
               OpInsert p ∈ oplog (mem w) /\ OpDelete p ∉ oplog (mem w)) /\
    admitted (mem w) = admissions ins /\
    removed (mem w) <= admitted (mem w) /\
    size (clients (mem w)) = admitted (mem w) - removed (mem w).
Proof.
  destruct (run_Inv Marshal ins main Inv_main) as (w & Hrun & HI & Had & _).
  exists w. split; [done|]. destruct HI as [Hbrk Hreg Hins Hcls Hdel Hsz].
  split; [|split; [exact Had|lia]].
  intros p. rewrite Hreg, <- !count_op_elem_of, Hins, Hdel. unfold live, gone.
  destruct (heap (mem w) !! p) as [cl|]; [destruct (closed (send cl))|]; simpl;
    split; try (intros [? ?]); try split; try lia; try done.
Qed.

(** C6. After any inputs to the server started by [main], with unregister
    events for any Connection any number of times and broadcasts that drop
    Connections, the run has not panicked and the manager has closed the
    queue of each Connection at most once. *)
Theorem C6_queue_closed_at_most_once (ins : list input) :
  exists w,
    run Marshal ins main = Some w /\
    forall p, count_op (OpClose p) (oplog (mem w)) <= 1.
Proof.
  destruct (run_Inv Marshal ins main Inv_main) as (w & Hrun & HI & _).
  exists w. split; [done|]. intros p. rewrite (inv_cls _ _ HI).
  destruct (gone (mem w) p); lia.
Qed.

(** C5. One pass of the read pump. On a payload [P] the pump sends on
    broadcast the serialization of the envelope with this Connection's
    identity as sender, [P] as content and no recipient, and goes on; under
    [json.Marshal] the wire form has the sender and content members only. On
    a failed read it sends itself on unregister, closes the socket and
    leaves the loop, whatever reads would follow. *)
Theorem C5_read_pump (c : ptr) (self : Client) (r : bytes + string)
    (rest : list (bytes + string)) :
  match r with
  | inl P =>
      let envelope := mkMessage (id self) EmptyString P in
      read_body Marshal c self r = ([ToBroadcast (Marshal envelope).1], true) /\
      Client_read Marshal c self (r :: rest) =
        ToBroadcast (Marshal envelope).1 :: Client_read Marshal c self rest /\
      (json_Marshal envelope).1 = json_object [("sender", id self); ("content", P)]
  | inr _ =>
      read_body Marshal c self r = ([ToUnregister c; SocketClose (socket self)], false) /\
      Client_read Marshal c self (r :: rest) =
        [ToUnregister c; SocketClose (socket self)] ++ read_deferred c self
  end.
Proof.
  destruct r as [P|e]; simpl; [|done].
  do 2 (split; [done|]). unfold json_object. simpl.
  by destruct (nonempty ("sender", id self)), (nonempty ("content", P)).
Qed.

(** C9, as the code has it. An admitted Connection is a new Client whose
    queue is unbuffered: capacity zero, open, empty, untouched by the
    admission. On such a queue a non-blocking send is taken exactly when the
    reader is parked in its receive at that moment. *)
Theorem C9_unbuffered_queue (conn : Conn) (uuid : string) (w w' : World) :
  wsPage Marshal (inl conn) uuid w = Some w' ->
  (exists cl, heap (mem w') !! brk w = Some cl /\ id cl = uuid /\
              socket cl = conn /\ send cl = make_chan 0) /\
  forall c m, dataqsiz c = 0 -> closed c = false ->
    exists c', chan_trysend m c = Some (recvq c, c').
Proof.
  intros H. split.
  - unfold wsPage in H. cbv zeta in H.
    destruct (select_case _ _ _) as [st'|] eqn:E; [|done].
    injection H as <-. simpl in *. unfold ClientManager_send in E.
    apply send_range_ignore in E. rewrite E. simpl. rewrite lookup_insert_eq. eauto.
  - intros c m Hcap Hopen. unfold chan_trysend. rewrite Hopen, Hcap.
    destruct (recvq c); [eauto|]. simpl. destruct (qcount c); eauto.
Qed.

End ServerClaims.

(** * The claims at concrete inputs *)

Example marshal_joined :
  json_Marshal joined_envelope =
  ("{" +:+ quote "content" +:+ ":" +:+ quote "/A new socket has connected." +:+ "}", None).
Proof. reflexivity. Qed.

Example marshal_chat :
  (json_Marshal (mkMessage "A" EmptyString "hi")).1 =
  "{" +:+ quote "sender" +:+ ":" +:+ quote "A" +:+ ","
      +:+ quote "content" +:+ ":" +:+ quote "hi" +:+ "}".
Proof. reflexivity. Qed.

Example escape_html : escape "a<b" = "a" +:+ String backslash "u003cb".
Proof. reflexivity. Qed.

Example escape_quote :
  escape (String dquote "x") = String backslash (String dquote "x").
Proof. reflexivity. Qed.

(** The register channel is written in one place, [wsPage], each time with
    a Client made the line before. Were a removed Client sent on it again,
    the next unregister would close a closed queue, which panics; this is
    why the server is run from [wsPage] and not from bare register events. *)
Example register_again_panics :
  ClientManager_start json_Marshal
    [Unregister 2%positive; Register 2%positive; Unregister 2%positive] room = None.
Proof. vm_compute. reflexivity. Qed.

(** [room] meets the hypothesis of C1; the broadcast goes through. *)
Lemma C1_witness :
  sound room = true /\
  exists st', select_case json_Marshal (Broadcast "hi") room = Some st'.
Proof.
  split; [reflexivity|].
  destruct (C1_broadcast_fanout json_Marshal "hi" room eq_refl) as (st' & H & _).
  by exists st'.
Defined.

(** What the broadcast of C1 does in [room]: the first Connection is parked
    and takes the message, the other two are dropped. *)
Example broadcast_in_room :
  (fun st => (keys (clients st), inbox st 1%positive, gone st 2%positive, inbox st 2%positive, oplog st))
    <$> select_case json_Marshal (Broadcast "hi") room =
  Some ([1%positive], ["hi"], true, [],
        [OpInsert 1%positive; OpInsert 2%positive; OpInsert 3%positive;
         OpClose 3%positive; OpDelete 3%positive; OpClose 2%positive; OpDelete 2%positive]).
Proof. vm_compute. reflexivity. Qed.

(** What the unregister of C3 does in [room], and that a second one for the
    same Connection changes nothing. *)
Example unregister_twice_in_room :
  (fun st => (keys (clients st), gone st 2%positive, inbox st 1%positive, inbox st 2%positive))
    <$> ClientManager_start json_Marshal [Unregister 2%positive; Unregister 2%positive] room =
  Some ([3%positive; 1%positive], true, [(json_Marshal left_envelope).1], []) /\
  ClientManager_start json_Marshal [Unregister 2%positive; Unregister 2%positive] room =
  ClientManager_start json_Marshal [Unregister 2%positive] room.
Proof. split; vm_compute; reflexivity. Qed.


(** C9 as the claim states it fails: the queue made at admission has
    capacity zero, and once the reader has taken one message, so that
    nothing is pending, the next non-blocking send is refused. *)
Lemma C9_counterexample :
  exists w cl c1,
    wsPage json_Marshal (inl 4) "a" main = Some w /\
    heap (mem w) !! 1%positive = Some cl /\
    ~ 1 <= dataqsiz (send cl) /\
    chan_trysend "m1" (chan_recv (send cl)) = Some (true, c1) /\
    qcount c1 = 0 /\
    chan_trysend "m2" c1 = Some (false, c1).
Proof.
  eexists _, _, _. split; [vm_compute; reflexivity|]. split; [vm_compute; reflexivity|].
  split; [simpl; lia|]. split; [vm_compute; reflexivity|]. split; reflexivity.
Qed.

Lemma C9_witness :
  exists w',
    wsPage json_Marshal (inl 4) "a" main = Some w' /\
    exists cl, heap (mem w') !! 1%positive = Some cl /\ send cl = make_chan 0.
Proof.
  eexists. split; [vm_compute; reflexivity|].
  destruct (C9_unbuffered_queue json_Marshal 4 "a" main _ eq_refl)
    as ((cl & H1 & _ & _ & H2) & _).
  by exists cl.
Defined.

(** The scenario of three Connections: A, B, C join; A says hi while all
    three write pumps are parked; then the read of C fails. *)
Example scenario :
  (fun w => (keys (clients (mem w)), inbox (mem w) 2%positive, inbox (mem w) 3%positive))
    <$> run json_Marshal
          [HttpWs (inl 4) "A"; HttpWs (inl 5) "B"; HttpWs (inl 6) "C";
           PumpReceive 1%positive; PumpReceive 2%positive; PumpReceive 3%positive;
           PumpBroadcast (json_Marshal (mkMessage "A" EmptyString "hi")).1;
           PumpUnregister 3%positive; PumpUnregister 3%positive] main =
  Some ([2%positive; 1%positive],
        [(json_Marshal joined_envelope).1; (json_Marshal (mkMessage "A" EmptyString "hi")).1;
         (json_Marshal left_envelope).1],
        [(json_Marshal (mkMessage "A" EmptyString "hi")).1]).
Proof. vm_compute. reflexivity. Qed.

(** * Further properties of the code *)

(** ** The pumps *)

Section PumpFacts.

Variable Marshal : Message -> bytes * error.

Lemma Client_read_inl c self P reads :
  Client_read Marshal c self (inl P :: reads) =
  ToBroadcast (Marshal (mkMessage (id self) EmptyString P)).1
    :: Client_read Marshal c self reads.
Proof. done. Qed.

Lemma events_of_broadcast m acts :
  events_of (ToBroadcast m :: acts) = Broadcast m :: events_of acts.
Proof. done. Qed.

(** X1. While every read succeeds the read pump does nothing but send one
    broadcast per payload, in the order read: it neither unregisters nor
    closes its socket. *)
Theorem read_pump_running (c : ptr) (self : Client) (Ps : list bytes) :
  Client_read Marshal c self (inl <$> Ps) =
    (fun P => ToBroadcast (Marshal (mkMessage (id self) EmptyString P)).1) <$> Ps /\
  events_of (Client_read Marshal c self (inl <$> Ps)) =
    (fun P => Broadcast (Marshal (mkMessage (id self) EmptyString P)).1) <$> Ps.
Proof.
  induction Ps as [|P Ps [IH1 IH2]]; [done|].
  rewrite !fmap_cons, Client_read_inl, events_of_broadcast, IH2, IH1. done.
Qed.

(** X2. At the first failed read the read pump stops: after the broadcasts
    of the payloads read so far it sends itself on unregister and closes its
    socket twice over (the failure branch, then the deferred function), and
    reads nothing further. The manager so receives exactly two unregisters
    for it. *)
Theorem read_pump_exit (c : ptr) (self : Client) (Ps : list bytes) (e : string)
    (rest : list (bytes + string)) :
  Client_read Marshal c self ((inl <$> Ps) ++ inr e :: rest) =
    ((fun P => ToBroadcast (Marshal (mkMessage (id self) EmptyString P)).1) <$> Ps) ++
    [ToUnregister c; SocketClose (socket self); ToUnregister c; SocketClose (socket self)] /\
  events_of (Client_read Marshal c self ((inl <$> Ps) ++ inr e :: rest)) =
    ((fun P => Broadcast (Marshal (mkMessage (id self) EmptyString P)).1) <$> Ps) ++
    [Unregister c; Unregister c].
Proof.
  induction Ps as [|P Ps [IH1 IH2]]; [done|].
  rewrite !fmap_cons, <- !app_comm_cons, Client_read_inl, events_of_broadcast, IH2, IH1.
  done.
Qed.

End PumpFacts.

(** X3. While its queue stays open the write pump writes each message it
    receives as one text frame, in order, and never closes its socket. *)
Theorem write_pump_running (self : Client) (ms : list bytes) :
  Client_write self (Some <$> ms) = WriteMessage (socket self) TextMessage <$> ms.
Proof. induction ms as [|m ms IH]; [done|]. rewrite !fmap_cons. simpl. by rewrite IH. Qed.

(** X4. When its queue is closed the write pump, having written the
    messages received before as text frames in order, writes one close frame
    with no data, closes its socket once and stops: nothing that the receive
    would still give is written. *)
Theorem write_pump_exit (self : Client) (ms : list bytes) (rest : list (option bytes)) :
  Client_write self ((Some <$> ms) ++ None :: rest) =
    (WriteMessage (socket self) TextMessage <$> ms) ++
    [WriteMessage (socket self) CloseMessage EmptyString; CloseSocket (socket self)].
Proof.
  induction ms as [|m ms IH]; [done|].
  rewrite !fmap_cons, <- !app_comm_cons. simpl. by rewrite IH.
Qed.

(** ** The manager outside its invariant, and the order of [range] *)

Lemma send_to_other k m st st' p :
  send_to k m st = Some st' -> p ≠ k -> heap st' !! p = heap st !! p.
Proof.
  unfold send_to. intros H Hne.
  destruct (heap st !! k) as [cl|]; [|done]. simpl in H.
  destruct (chan_send m (send cl)) as [c| |]; [| |done];
    injection H as <-; simpl; by rewrite lookup_insert_ne.
Qed.

Lemma send_to_stale p m st : live st p = false -> send_to p m st = None.
Proof.
  unfold live, send_to. destruct (heap st !! p) as [cl|]; [|done]. simpl.
  unfold chan_send. by destruct (closed (send cl)).
Qed.

Lemma send_range_stale ks m ig st p :
  p ∈ ks -> p ≠ ig -> live st p = false -> send_range ks m ig st = None.
Proof.
  revert st. induction ks as [|k ks IH]; intros st Hin Hne Hl.
  - by apply elem_of_nil in Hin.
  - simpl. apply elem_of_cons in Hin. destruct (decide (k = ig)) as [->|Hk].
    + apply IH; [|done..]. by destruct Hin.
    + destruct (decide (k = p)) as [->|Hkp]; [by rewrite send_to_stale|].
      destruct (send_to k m st) as [st1|] eqn:E; [|done]. simpl.
      apply IH; [by destruct Hin| done |].
      unfold live. by rewrite (send_to_other _ _ _ _ _ E) by done.
Qed.

Lemma send_range_registry ks m ig st st' :
  send_range ks m ig st = Some st' -> clients st' = clients st /\ oplog st' = oplog st.
Proof.
  revert st. induction ks as [|k ks IH]; intros st H; simpl in H.
  - by injection H as <-.
  - destruct (decide (k = ig)); [by apply IH|].
    destruct (send_to k m st) as [st1|] eqn:E; [|done]. simpl in H.
    apply IH in H as [-> ->]. unfold send_to in E.
    destruct (heap st !! k) as [cl|]; [|done]. simpl in E.
    destruct (chan_send m (send cl)); [| |done]; by injection E as <-.
Qed.

Lemma close_send_other k st st' p :
  close_send k st = Some st' -> p ≠ k -> heap st' !! p = heap st !! p.
Proof.
  unfold close_send. intros H Hne.
  destruct (heap st !! k) as [cl|]; [|done]. simpl in H.
  destruct (chan_close (send cl)) as [c|]; [|done]. simpl in H.
  injection H as <-. simpl. by rewrite lookup_insert_ne.
Qed.

Lemma close_send_registry k st st' : close_send k st = Some st' -> clients st' = clients st.
Proof.
  unfold close_send. intros H.
  destruct (heap st !! k) as [cl|]; [|done]. simpl in H.
  destruct (chan_close (send cl)) as [c|]; [|done]. by injection H as <-.
Qed.

Lemma close_send_stale p st : live st p = false -> close_send p st = None.
Proof.
  unfold live, close_send. destruct (heap st !! p) as [cl|]; [|done]. simpl.
  unfold chan_close. by destruct (closed (send cl)).
Qed.

Lemma broadcast_one_other k m st st' p :
  broadcast_one k m st = Some st' -> p ≠ k -> heap st' !! p = heap st !! p.
Proof.
  unfold broadcast_one. intros H Hne.
  destruct (heap st !! k) as [cl|] eqn:Hcl; [|done]. simpl in H.
  destruct (chan_trysend m (send cl)) as [[[] c]|]; simpl in H; [| |done].
  - injection H as <-. simpl. by rewrite lookup_insert_ne.
  - destruct (close_send k st) as [st1|] eqn:E; [|done]. simpl in H.
    injection H as <-. simpl. by apply (close_send_other k).
Qed.

Lemma broadcast_one_stale p m st : live st p = false -> broadcast_one p m st = None.
Proof.
  unfold live, broadcast_one. destruct (heap st !! p) as [cl|]; [|done]. simpl.
  unfold chan_trysend. by destruct (closed (send cl)).
Qed.

Lemma broadcast_range_stale ks m st p :
  p ∈ ks -> live st p = false -> broadcast_range ks m st = None.
Proof.
  revert st. induction ks as [|k ks IH]; intros st Hin Hl.
  - by apply elem_of_nil in Hin.
  - simpl. destruct (decide (k = p)) as [->|Hkp]; [by rewrite broadcast_one_stale|].
    destruct (broadcast_one k m st) as [st1|] eqn:E; [|done]. simpl.
    apply elem_of_cons in Hin. apply IH; [by destruct Hin|].
    unfold live. by rewrite (broadcast_one_other _ _ _ _ _ E) by done.
Qed.

Lemma drops_none st ks :
  (forall p, p ∈ ks -> accepts st p = true) -> drops st ks = [].
Proof.
  induction ks as [|k ks IH]; intros H; [done|].
  change (drops st (k :: ks))
    with ((if accepts st k then [] else [OpClose k; OpDelete k]) ++ drops st ks).
  rewrite (H k) by (by left). simpl. apply IH. intros p Hp. apply H. by right.
Qed.

Lemma all_parked_spec st :
  all_parked st = true <-> forall p, is_Some (clients st !! p) -> accepts st p = true.
Proof.
  unfold all_parked. rewrite forallb_forall. split.
  - intros H p Hp. apply H. apply list_elem_of_In. by apply elem_of_keys.
  - intros H p Hp. apply H. apply elem_of_keys. by apply list_elem_of_In.
Qed.

(** X8. The result of the broadcast loop does not depend on the order in
    which [range] visits the registry: over any arrangement of the keys it
    ends with the same registry and the same Clients; only the order of the
    entries in the ghost record follows the order of visit. *)
Theorem broadcast_any_order (ks : list ptr) (message : bytes) (st : State) :
  sound st = true ->
  keys (clients st) ≡ₚ ks ->
  exists st1 st2,
    broadcast_range (keys (clients st)) message st = Some st1 /\
    broadcast_range ks message st = Some st2 /\
    clients st2 = clients st1 /\ heap st2 = heap st1 /\ oplog st2 ≡ₚ oplog st1.
Proof.
  intros Hs Hperm. pose proof (proj1 (sound_spec st) Hs) as Hlive.
  assert (Hmem : forall q, q ∈ ks <-> q ∈ keys (clients st)).
  { intros q. by rewrite Hperm. }
  destruct (broadcast_range_spec (keys (clients st)) message st)
    as (c1 & h1 & Hrun1 & Hc1 & Hh1).
  { apply NoDup_keys. }
  { intros q Hq. apply Hlive. by apply elem_of_keys. }
  destruct (broadcast_range_spec ks message st) as (c2 & h2 & Hrun2 & Hc2 & Hh2).
  { rewrite <- Hperm. apply NoDup_keys. }
  { intros q Hq. apply Hlive. apply elem_of_keys. by apply Hmem. }
  eexists _, _. split; [exact Hrun1|]. split; [exact Hrun2|]. simpl.
  split; [|split].
  - apply map_eq. intros q. rewrite Hc1, Hc2.
    erewrite bool_decide_ext; [done|]. by rewrite Hmem.
  - apply map_eq. intros q. rewrite Hh1, Hh2.
    erewrite bool_decide_ext; [done|]. by rewrite Hmem.
  - apply Permutation_app; [done|]. unfold drops.
    apply Permutation_flat_map. by symmetry.
Qed.

Section ManagerMore.

Variable Marshal : Message -> bytes * error.

Lemma unregister_leaves_out conn st st' :
  select_case Marshal (Unregister conn) st = Some st' -> clients st' !! conn = None.
Proof.
  simpl. destruct (clients st !! conn) as [v|] eqn:E.
  - destruct (close_send conn st) as [st1|] eqn:E1; [|done]. simpl.
    intros H. apply send_range_registry in H as [-> _]. simpl. apply lookup_delete_eq.
  - by intros [= <-].
Qed.

(** X9. A second unregister for the same Connection changes nothing,
    whatever the state: the two that a read pump sends at its exit leave the
    manager where the first alone leaves it. *)
Theorem unregister_twice (conn : ptr) (st : State) :
  ClientManager_start Marshal [Unregister conn; Unregister conn] st =
  ClientManager_start Marshal [Unregister conn] st.
Proof.
  rewrite !ClientManager_start_cons.
  destruct (select_case Marshal (Unregister conn) st) as [st1|] eqn:E; [|done].
  cbn [mbind option_bind]. rewrite ClientManager_start_cons.
  by rewrite (unregister_absent _ _ _ (unregister_leaves_out _ _ _ E)).
Qed.

(** X10. When every registered Connection is parked in its receive, a
    broadcast reaches all of them and drops none: the registry and the ghost
    record are as before and each registered queue has the message added
    once. *)
Theorem broadcast_all_parked (message : bytes) (st : State) :
  sound st = true -> all_parked st = true ->
  exists st',
    select_case Marshal (Broadcast message) st = Some st' /\
    clients st' = clients st /\ oplog st' = oplog st /\
    forall p, is_Some (clients st !! p) -> inbox st' p = inbox st p ++ [message].
Proof.
  intros Hs Hp. pose proof (proj1 (sound_spec st) Hs) as Hlive.
  pose proof (proj1 (all_parked_spec st) Hp) as Hacc.
  destruct (broadcast_spec Marshal message st Hs) as (c & h & Hrun & Hc & Hh).
  eexists. split; [exact Hrun|]. simpl. split; [|split].
  - apply map_eq. intros q. rewrite Hc. case_bool_decide as Hq; [|done].
    destruct Hq as [Hq1 Hq2]. by rewrite (Hacc q Hq1) in Hq2.
  - rewrite drops_none, app_nil_r; [done|]. intros q Hq%elem_of_keys. by apply Hacc.
  - intros p Hin. destruct (live_allocated st p (Hlive p Hin)) as [cl Hcl].
    specialize (Hacc p Hin). unfold accepts in Hacc. rewrite Hcl in Hacc.
    unfold inbox. simpl. rewrite Hh, bool_decide_eq_true_2, Hcl by done. simpl.
    unfold offer. rewrite Hacc. simpl. apply sent_accept.
Qed.

End ManagerMore.

(** ** The server over time *)

Lemma after_refl c : after c c.
Proof. by split. Qed.

Lemma after_trans c1 c2 c3 : after c1 c2 -> after c2 c3 -> after c1 c3.
Proof.
  intros [Ha1 Ha2 Ha3 Ha4] [Hb1 Hb2 Hb3 Hb4]. split.
  - congruence.
  - by etrans.
  - intros H. destruct (Ha3 H) as [H1 H2]. destruct (Hb3 H1) as [H3 H4].
    split; [done|congruence].
  - intros H1 H2. apply Hb4; [congruence | by apply Ha4].
Qed.

Lemma after_push m c : closed c = false -> after c (push m c).
Proof.
  intros Hopen. split.
  - unfold push. by repeat case_match.
  - rewrite sent_push. by apply prefix_app_r.
  - congruence.
  - intros Hcap Hq. unfold push. rewrite Hcap, Hq. by destruct (recvq c).
Qed.

Lemma after_accept m c : closed c = false -> can_accept c = true -> after c (accept m c).
Proof.
  intros Hopen Hacc. split.
  - unfold accept. by case_match.
  - rewrite sent_accept. by apply prefix_app_r.
  - congruence.
  - intros Hcap Hq. unfold can_accept in Hacc. rewrite Hcap, Hq in Hacc.
    unfold accept. by destruct (recvq c).
Qed.

Lemma after_shut c : closed c = false -> after c (shut c).
Proof. intros Hopen. split; try done; congruence. Qed.

Lemma after_recv c : after c (chan_recv c).
Proof.
  split.
  - unfold chan_recv. by repeat case_match.
  - unfold chan_recv. by repeat case_match.
  - intros H. unfold chan_recv. rewrite H. by destruct (0 <? qcount c).
  - intros _ Hq. unfold chan_recv. rewrite Hq. simpl. by destruct (closed c).
Qed.

Lemma later_same (h h' : gmap positive Client) p : h' !! p = h !! p -> later h h' p.
Proof.
  intros H. unfold later. rewrite H. destruct (h !! p) as [cl|]; [|by left].
  exists (send cl). split; [by destruct cl | apply after_refl].
Qed.

Lemma later_with (h h' : gmap positive Client) p cl f :
  h !! p = Some cl -> h' !! p = Some (with_send f cl) -> after (send cl) (f (send cl)) ->
  later h h' p.
Proof. intros H H' Ha. unfold later. rewrite H. by exists (f (send cl)). Qed.

Lemma later_trans (h1 h2 h3 : gmap positive Client) p :
  later h1 h2 p -> later h2 h3 p -> later h1 h3 p.
Proof.
  unfold later. destruct (h1 !! p) as [cl|].
  - intros (c2 & -> & Ha). simpl. intros (c3 & -> & Hb).
    exists c3. split; [done|]. by apply (after_trans _ c2).
  - intros [->|(uuid & conn & c2 & -> & Ha)]; [done|]. simpl.
    intros (c3 & -> & Hb). right. exists uuid, conn, c3. split; [done|].
    by apply (after_trans _ c2).
Qed.

Section ServerMore.

Variable Marshal : Message -> bytes * error.

Lemma run_app ins ins' w :
  run Marshal (ins ++ ins') w = run Marshal ins w ≫= run Marshal ins'.
Proof.
  revert w. induction ins as [|i ins IH]; intros w; [done|].
  simpl. destruct (step Marshal i w); [apply IH|done].
Qed.

Lemma InvSt_open b st p cl :
  InvSt b st -> is_Some (clients st !! p) -> heap st !! p = Some cl ->
  closed (send cl) = false.
Proof.
  intros HI Hin Hcl. apply (inv_reg _ _ HI) in Hin. unfold live in Hin.
  rewrite Hcl in Hin. by destruct (closed (send cl)).
Qed.

Lemma step_later i w w' :
  Inv w -> step Marshal i w = Some w' ->
  forall p, later (heap (mem w)) (heap (mem w')) p.
Proof.
  intros HI Hstep p. unfold Inv in HI.
  destruct i as [[conn|[e res]] uuid|c|m|c]; unfold step, on_mem, wsPage in Hstep;
    cbv zeta in Hstep.
  - set (cl0 := mkClient uuid conn (make_chan 0)) in *.
    destruct (register_spec Marshal (brk w) (set_client (brk w) cl0 (mem w)))
      as (h & Hrun & Hh).
    { intros q Hq Hne. unfold live. simpl. rewrite lookup_insert_ne by done.
      by apply HI. }
    rewrite Hrun in Hstep. injection Hstep as <-. simpl. simpl in Hh.
    assert (Hfree : heap (mem w) !! brk w = None).
    { destruct (heap (mem w) !! brk w) eqn:E; [|done].
      assert (brk w < brk w)%positive by (apply (inv_brk _ _ HI); eauto). lia. }
    destruct (decide (p = brk w)) as [->|Hne].
    + unfold later. rewrite Hfree. right. exists uuid, conn, (make_chan 0).
      split; [|apply after_refl].
      rewrite Hh, bool_decide_eq_false_2 by (by intros [_ ?]).
      apply lookup_insert_eq.
    + specialize (Hh p). rewrite lookup_insert_ne in Hh by done.
      case_bool_decide as Hq; [|by apply later_same].
      destruct Hq as [Hq _].
      destruct (live_allocated (mem w) p) as [cl Hcl]; [by apply HI|].
      apply (later_with _ _ _ cl (push (Marshal joined_envelope).1)); [done| |].
      * by rewrite Hh, Hcl.
      * apply after_push. by apply (InvSt_open _ _ p _ HI).
  - injection Hstep as <-. by apply later_same.
  - destruct (clients (mem w) !! c) as [v|] eqn:E.
    + assert (Hin : is_Some (clients (mem w) !! c)) by (rewrite E; eauto).
      destruct (unregister_spec Marshal c (mem w) (InvSt_sound _ _ HI) Hin)
        as (cl0 & h & Hcl0 & Hopen & Hrun & Hh).
      rewrite Hrun in Hstep. injection Hstep as <-. simpl.
      specialize (Hh p). destruct (decide (p = c)) as [->|Hne].
      * by apply (later_with _ _ _ cl0 shut); [| |apply after_shut].
      * case_bool_decide as Hq; [|by apply later_same].
        destruct (live_allocated (mem w) p) as [cl Hcl]; [by apply HI|].
        apply (later_with _ _ _ cl (push (Marshal left_envelope).1)); [done| |].
        -- by rewrite Hh, Hcl.
        -- apply after_push. by apply (InvSt_open _ _ p _ HI).
    + rewrite (unregister_absent Marshal _ _ E) in Hstep. injection Hstep as <-.
      by apply later_same.
  - destruct (broadcast_spec Marshal m (mem w) (InvSt_sound _ _ HI))
      as (c1 & h & Hrun & _ & Hh).
    rewrite Hrun in Hstep. injection Hstep as <-. simpl.
    specialize (Hh p). case_bool_decide as Hq; [|by apply later_same].
    destruct (live_allocated (mem w) p) as [cl Hcl]; [by apply HI|].
    pose proof (InvSt_open _ _ p _ HI Hq Hcl) as Hopen.
    rewrite Hcl in Hh. simpl in Hh. unfold offer in Hh.
    destruct (can_accept (send cl)) eqn:Hacc.
    + by apply (later_with _ _ _ cl (accept m)); [| |apply after_accept].
    + by apply (later_with _ _ _ cl shut); [| |apply after_shut].
  - unfold receive in Hstep. destruct (heap (mem w) !! c) as [cl|] eqn:E.
    + injection Hstep as <-. simpl. destruct (decide (p = c)) as [->|Hne].
      * apply (later_with _ _ _ cl chan_recv); [done| |apply after_recv].
        apply lookup_insert_eq.
      * apply later_same. by rewrite lookup_insert_ne.
    + injection Hstep as <-. by apply later_same.
Qed.

Lemma run_later ins w :
  Inv w ->
  exists w',
    run Marshal ins w = Some w' /\ Inv w' /\
    forall p, later (heap (mem w)) (heap (mem w')) p.
Proof.
  revert w. induction ins as [|i ins IH]; intros w HI.
  - exists w. split; [done|]. split; [done|]. intros p. by apply later_same.
  - destruct (step_Inv Marshal i w HI) as (w1 & Hstep & HI1 & _).
    destruct (IH w1 HI1) as (w' & Hrun & HI' & Hl).
    exists w'. simpl. rewrite Hstep. split; [done|]. split; [done|].
    intros p. apply (later_trans _ (heap (mem w1))); [|done].
    by apply (step_later i w w1).
Qed.

(** The two worlds of a run and of a longer run. *)
Lemma run_twice ins ins' :
  exists w w',
    run Marshal ins main = Some w /\ run Marshal (ins ++ ins') main = Some w' /\
    Inv w /\ Inv w' /\ forall p, later (heap (mem w)) (heap (mem w')) p.
Proof.
  destruct (run_later ins main Inv_main) as (w & Hrun & HI & _).
  destruct (run_later ins' w HI) as (w' & Hrun' & HI' & Hl).
  exists w, w'. rewrite run_app, Hrun. done.
Qed.

(** X11. What the manager has delivered to a queue is never taken back or
    reordered: along any run of the server the history of every queue only
    grows at its end. *)
Theorem delivered_history_only_grows (ins ins' : list input) :
  exists w w',
    run Marshal ins main = Some w /\ run Marshal (ins ++ ins') main = Some w' /\
    forall p, inbox (mem w) p `prefix_of` inbox (mem w') p.
Proof.
  destruct (run_twice ins ins') as (w & w' & Hrun & Hrun' & _ & _ & Hl).
  exists w, w'. do 2 (split; [done|]). intros p. specialize (Hl p).
  unfold later in Hl. unfold inbox.
  destruct (heap (mem w) !! p) as [cl|]; [|apply prefix_nil].
  destruct Hl as (c' & -> & Ha). apply Ha.
Qed.

(** X12. Removal is for good: a Connection whose queue the manager has
    closed stays closed and out of the registry whatever happens next, and
    nothing more is ever delivered to it. *)
Theorem removed_for_good (ins ins' : list input) :
  exists w w',
    run Marshal ins main = Some w /\ run Marshal (ins ++ ins') main = Some w' /\
    forall p, gone (mem w) p = true ->
      gone (mem w') p = true /\ clients (mem w') !! p = None /\
      inbox (mem w') p = inbox (mem w) p.
Proof.
  destruct (run_twice ins ins') as (w & w' & Hrun & Hrun' & _ & HI' & Hl).
  exists w, w'. do 2 (split; [done|]). intros p Hg. specialize (Hl p).
  unfold later in Hl. unfold gone, inbox in *.
  destruct (heap (mem w) !! p) as [cl|]; [|done].
  destruct Hl as (c' & Hc' & Ha). destruct (after_closed _ _ Ha Hg) as [Hcl Hs].
  rewrite Hc'. simpl. split; [done|]. split; [|done].
  destruct (clients (mem w') !! p) as [v|] eqn:E; [|done].
  assert (Hlv : live (mem w') p = true) by (apply HI'; rewrite E; eauto).
  unfold live in Hlv. rewrite Hc' in Hlv. simpl in Hlv. by rewrite Hcl in Hlv.
Qed.

(** X13. A Client keeps its identity, its socket and its address: whatever
    happens next, the object at the address has the same [id] and [socket],
    and its queue is still the unbuffered one it was made with. *)
Theorem client_identity_kept (ins ins' : list input) :
  exists w w',
    run Marshal ins main = Some w /\ run Marshal (ins ++ ins') main = Some w' /\
    forall p cl, heap (mem w) !! p = Some cl ->
      dataqsiz (send cl) = 0 /\ qcount (send cl) = 0 /\
      exists cl', heap (mem w') !! p = Some cl' /\
                  id cl' = id cl /\ socket cl' = socket cl.
Proof.
  destruct (run_later ins main Inv_main) as (w & Hrun & HI & Hl0).
  destruct (run_later ins' w HI) as (w' & Hrun' & HI' & Hl).
  exists w, w'. rewrite run_app, Hrun. do 2 (split; [done|]).
  intros p cl Hcl. specialize (Hl p). specialize (Hl0 p). unfold later in Hl, Hl0.
  rewrite Hcl in Hl. simpl in Hl0. rewrite lookup_empty, Hcl in Hl0.
  destruct Hl0 as [?|(uuid & conn & c0 & [= ->] & Ha0)]; [done|]. simpl.
  split; [by rewrite (after_cap _ _ Ha0)|].
  split; [by apply (after_empty _ _ Ha0)|].
  destruct Hl as (c' & -> & _). by eexists.
Qed.

(** X14. Two broadcasts in a row empty the registry: a Connection that took
    the first message has left its receive, its queue holds nothing, and the
    second non-blocking send finds nobody waiting; so whatever came before,
    after the second broadcast no Connection is registered. *)
Theorem second_broadcast_empties_registry (ins : list input) (m1 m2 : bytes) :
  exists w,
    run Marshal (ins ++ [PumpBroadcast m1; PumpBroadcast m2]) main = Some w /\
    clients (mem w) = ∅.
Proof.
  destruct (run_later ins main Inv_main) as (w0 & Hrun0 & HI0 & Hl0).
  rewrite run_app, Hrun0. cbn [mbind option_bind run step]. unfold on_mem.
  destruct (InvSt_broadcast Marshal (brk w0) m1 (mem w0) HI0) as (st1 & Hrun1 & HI1 & _).
  destruct (broadcast_spec Marshal m1 (mem w0) (InvSt_sound _ _ HI0))
    as (c1 & h1 & Hspec1 & Hc1 & Hh1).
  rewrite Hrun1 in Hspec1. injection Hspec1 as ->.
  rewrite Hrun1. cbn [mbind option_bind mem].
  set (st1 := mkState c1 h1 _) in *.
  destruct (broadcast_spec Marshal m2 st1 (InvSt_sound _ _ HI1))
    as (c2 & h2 & Hrun2 & Hc2 & _).
  rewrite Hrun2. cbn [mbind option_bind]. eexists. split; [done|]. simpl.
  apply map_eq. intros q. rewrite Hc2, lookup_empty. simpl.
  case_bool_decide as Hq; [done|]. rewrite Hc1.
  case_bool_decide as Hq1; [done|].
  destruct (clients (mem w0) !! q) as [v|] eqn:E; [|done]. exfalso.
  assert (Hin : is_Some (clients (mem w0) !! q)) by (rewrite E; eauto).
  destruct (live_allocated (mem w0) q) as [cl Hcl]; [by apply HI0|].
  assert (Hacc : accepts (mem w0) q = true).
  { destruct (accepts (mem w0) q) eqn:Ha; [done|]. by destruct Hq1. }
  apply Hq. split.
  - rewrite Hc1, bool_decide_eq_false_2 by (intros [_ ?]; congruence).
    rewrite E. eauto.
  - specialize (Hl0 q). unfold later in Hl0. simpl in Hl0.
    rewrite lookup_empty, Hcl in Hl0.
    destruct Hl0 as [?|(uuid & conn & c0 & [= ->] & Ha0)]; [done|].
    pose proof (after_cap _ _ Ha0) as Hcap. simpl in Hcap.
    pose proof (after_empty _ _ Ha0 eq_refl eq_refl) as Hq0.
    unfold accepts in Hacc. rewrite Hcl in Hacc. simpl in Hacc.
    unfold can_accept in Hacc. rewrite Hcap, Hq0 in Hacc. simpl in Hacc.
    rewrite orb_false_r in Hacc.
    unfold accepts. simpl. rewrite Hh1, bool_decide_eq_true_2, Hcl by done. simpl.
    unfold offer, can_accept, accept. simpl. rewrite Hcap, Hq0, Hacc. simpl.
    rewrite Hacc. simpl. by rewrite Hcap, Hq0.
Qed.

(** X15. In every state of a run the registry is exactly the set of Clients
    whose queue is open, and the queue of a Client is closed exactly when
    the manager has closed it, which it has done as often as it has deleted
    the Client: the manager never keeps a closed queue to send on. *)
Theorem registry_is_the_open_queues (ins : list input) :
  exists w,
    run Marshal ins main = Some w /\
    forall p,
      (is_Some (clients (mem w) !! p) <-> live (mem w) p = true) /\
      (gone (mem w) p = true <-> OpClose p ∈ oplog (mem w)) /\
      count_op (OpClose p) (oplog (mem w)) = count_op (OpDelete p) (oplog (mem w)).
Proof.
  destruct (run_Inv Marshal ins main Inv_main) as (w & Hrun & HI & _).
  exists w. split; [done|]. intros p. destruct HI as [_ Hreg _ Hcls Hdel _].
  split; [apply Hreg|]. split; [|by rewrite Hcls, Hdel].
  rewrite <- count_op_elem_of, Hcls. destruct (gone (mem w) p); split; (done || lia).
Qed.

Lemma recv_parks c :
  closed c = false -> dataqsiz c = 0 -> qcount c = 0 ->
  can_accept (chan_recv c) = true /\ sent (chan_recv c) = sent c.
Proof.
  intros Hopen Hcap Hq. unfold chan_recv, can_accept. by rewrite Hq, Hopen.
Qed.

(** X18. A Connection whose write pump is back in its receive is not
    dropped: at any point of a run, if the pump of a registered Connection
    reaches its receive and a broadcast follows, the Connection is still
    registered and the message is the one value added to its queue. *)
Theorem parked_connection_gets_broadcast (ins : list input) (p : ptr) (m : bytes) :
  exists w w',
    run Marshal ins main = Some w /\
    run Marshal (ins ++ [PumpReceive p; PumpBroadcast m]) main = Some w' /\
    (is_Some (clients (mem w) !! p) ->
       is_Some (clients (mem w') !! p) /\ inbox (mem w') p = inbox (mem w) p ++ [m]).
Proof.
  destruct (run_later ins main Inv_main) as (w & Hrun & HI & Hl0).
  exists w. rewrite run_app, Hrun. cbn [mbind option_bind run step]. unfold on_mem.
  destruct (InvSt_receive (brk w) p (mem w) HI) as (st1 & Hrecv & HI1 & _).
  rewrite Hrecv. cbn [mbind option_bind mem].
  destruct (broadcast_spec Marshal m st1 (InvSt_sound _ _ HI1))
    as (c2 & h2 & Hrun2 & Hc2 & Hh2).
  rewrite Hrun2. cbn [mbind option_bind]. eexists. split; [done|]. split; [done|].
  simpl. intros Hin.
  destruct (live_allocated (mem w) p) as [cl Hcl]; [by apply HI|].
  pose proof (InvSt_open _ _ p _ HI Hin Hcl) as Hopen.
  specialize (Hl0 p). unfold later in Hl0. simpl in Hl0. rewrite lookup_empty, Hcl in Hl0.
  destruct Hl0 as [?|(uuid & conn & c0 & [= ->] & Ha0)]; [done|].
  pose proof (after_cap _ _ Ha0) as Hcap. simpl in Hcap, Hopen.
  pose proof (after_empty _ _ Ha0 eq_refl eq_refl) as Hq0.
  destruct (recv_parks c0 Hopen Hcap Hq0) as [Hacc Hsent].
  unfold receive in Hrecv. rewrite Hcl in Hrecv. injection Hrecv as <-.
  simpl in Hc2, Hh2. specialize (Hc2 p). specialize (Hh2 p).
  unfold accepts in Hc2. simpl in Hc2.
  rewrite lookup_insert_eq in Hc2, Hh2. simpl in Hc2, Hh2.
  rewrite Hacc in Hc2. rewrite bool_decide_eq_false_2 in Hc2 by (by intros [_ ?]).
  rewrite bool_decide_eq_true_2 in Hh2 by done.
  split; [by rewrite Hc2|].
  unfold inbox. cbn [heap]. rewrite Hh2, Hcl. unfold offer. simpl. rewrite Hacc. simpl.
  by rewrite sent_accept, Hsent.
Qed.

End ServerMore.

(** X17. A chat message can never pass for an announcement: for a Client
    with a non-empty identity the bytes that the read pump sends on
    broadcast differ from the joined and from the left envelope, whatever
    the payload. *)
Theorem chat_is_not_an_announcement (c : ptr) (self : Client) (P : bytes) :
  id self ≠ EmptyString ->
  forall m, read_body json_Marshal c self (inl P) = ([ToBroadcast m], true) ->
    m ≠ (json_Marshal joined_envelope).1 /\ m ≠ (json_Marshal left_envelope).1.
Proof.
  intros Hid m [= <-]. destruct (id self) as [|a s]; [done|].
  unfold json_Marshal, json_object. simpl.
  destruct P; simpl; split; intros [=].
Qed.

(** ** The further properties at concrete inputs *)

Lemma keys_room : keys (clients room) ≡ₚ [1%positive; 2%positive; 3%positive].
Proof.
  replace (keys (clients room)) with (reverse [1%positive; 2%positive; 3%positive])
    by (vm_compute; reflexivity).
  apply reverse_Permutation.
Defined.

Lemma broadcast_any_order_witness :
  sound room = true /\
  keys (clients room) ≡ₚ [1%positive; 2%positive; 3%positive] /\
  exists st1 st2,
    broadcast_range (keys (clients room)) "x" room = Some st1 /\
    broadcast_range [1%positive; 2%positive; 3%positive] "x" room = Some st2 /\
    clients st2 = clients st1 /\ heap st2 = heap st1 /\ oplog st2 ≡ₚ oplog st1.
Proof.
  split; [reflexivity|]. split; [exact keys_room|].
  exact (broadcast_any_order [1%positive; 2%positive; 3%positive] "x" room
           eq_refl keys_room).
Defined.

Lemma broadcast_all_parked_witness :
  sound hall = true /\ all_parked hall = true /\
  exists st',
    select_case json_Marshal (Broadcast "x") hall = Some st' /\
    clients st' = clients hall /\ oplog st' = oplog hall.
Proof.
  split; [reflexivity|]. split; [reflexivity|].
  destruct (broadcast_all_parked json_Marshal "x" hall eq_refl eq_refl)
    as (st' & H1 & H2 & H3 & _).
  by exists st'.
Defined.

Lemma chat_is_not_an_announcement_witness :
  id (mkClient "a" 4 (make_chan 0)) ≠ EmptyString /\
  (json_Marshal (mkMessage "a" EmptyString "/A socket has disconnected.")).1
    ≠ (json_Marshal left_envelope).1.
Proof.
  split; [done|].
  exact (proj2 (chat_is_not_an_announcement 1%positive (mkClient "a" 4 (make_chan 0))
                  "/A socket has disconnected." ltac:(done) _ eq_refl)).
Defined.

(** The two orders of visit of X8 on [room]: same registry and Clients, the
    entries of the ghost record in the order visited. *)
Example broadcast_two_orders :
  (fun st => (keys (clients st), oplog st)) <$>
    broadcast_range [1%positive; 2%positive; 3%positive] "x" room =
  Some ([1%positive],
        [OpInsert 1%positive; OpInsert 2%positive; OpInsert 3%positive;
         OpClose 2%positive; OpDelete 2%positive; OpClose 3%positive; OpDelete 3%positive]) /\
  (fun st => (keys (clients st), oplog st)) <$>
    broadcast_range [3%positive; 2%positive; 1%positive] "x" room =
  Some ([1%positive],
        [OpInsert 1%positive; OpInsert 2%positive; OpInsert 3%positive;
         OpClose 3%positive; OpDelete 3%positive; OpClose 2%positive; OpDelete 2%positive]).
Proof. split; vm_compute; reflexivity. Qed.

(** X14 on a small run: three admissions, all pumps parked, two messages. *)
Example two_broadcasts :
  (fun w => (keys (clients (mem w)), inbox (mem w) 2%positive, gone (mem w) 2%positive)) <$>
    run json_Marshal
      [HttpWs (inl 4) "A"; HttpWs (inl 5) "B"; HttpWs (inl 6) "C";
       PumpReceive 1%positive; PumpReceive 2%positive; PumpReceive 3%positive;
       PumpBroadcast "one"; PumpBroadcast "two"] main =
  Some ([], [(json_Marshal joined_envelope).1; "one"], true).
Proof. vm_compute. reflexivity. Qed.

(** * How [send] waits *)

Lemma sent_recv c : sent (chan_recv c) = sent c.
Proof. unfold chan_recv. by repeat case_match. Qed.

Lemma chan_send_taken m c c' :
  chan_send m c = Taken c' -> closed c = false /\ closed c' = false /\ sent c' = sent c ++ [m].
Proof.
  unfold chan_send. destruct (closed c) eqn:Hc; [done|].
  destruct (recvq c); [intros [= <-]; simpl; by rewrite Hc|].
  destruct (qcount c <? dataqsiz c); [intros [= <-]; simpl; by rewrite Hc|done].
Qed.

Lemma chan_send_parks m c : chan_send m c = Parks -> closed c = false.
Proof. unfold chan_send. by repeat case_match. Qed.

Lemma chan_send_panics m c : closed c = true -> chan_send m c = Panics.
Proof. unfold chan_send. by intros ->. Qed.

Lemma chan_send_accepts m c :
  closed c = false -> can_accept c = true -> chan_send m c = Taken (accept m c).
Proof.
  unfold chan_send, can_accept, accept. intros -> H.
  destruct (recvq c); [done|]. simpl in H. by rewrite H.
Qed.

(** What a new Client at [k] changes in what is observed. *)
Lemma set_client_live k cl st p :
  live (set_client k cl st) p = if decide (p = k) then negb (closed (send cl)) else live st p.
Proof.
  unfold live. simpl. destruct (decide (p = k)) as [->|Hne].
  - by rewrite lookup_insert_eq.
  - by rewrite lookup_insert_ne.
Qed.

Lemma set_client_gone k cl st p :
  gone (set_client k cl st) p = if decide (p = k) then closed (send cl) else gone st p.
Proof.
  unfold gone. simpl. destruct (decide (p = k)) as [->|Hne].
  - by rewrite lookup_insert_eq.
  - by rewrite lookup_insert_ne.
Qed.

Lemma set_client_inbox k cl st p :
  inbox (set_client k cl st) p = if decide (p = k) then sent (send cl) else inbox st p.
Proof.
  unfold inbox. simpl. destruct (decide (p = k)) as [->|Hne].
  - by rewrite lookup_insert_eq.
  - by rewrite lookup_insert_ne.
Qed.

Lemma set_client_accepts k cl st p :
  p ≠ k -> accepts (set_client k cl st) p = accepts st p.
Proof. intros Hne. unfold accepts. simpl. by rewrite lookup_insert_ne. Qed.

Lemma suffix_elem_of (l k : list positive) p : l `suffix_of` k -> p ∈ l -> p ∈ k.
Proof. intros [pre ->] H. apply elem_of_app. by right. Qed.

Lemma suffix_NoDup (l k : list positive) : l `suffix_of` k -> NoDup k -> NoDup l.
Proof. intros [pre ->] H. by apply NoDup_app in H as (_ & _ & H). Qed.

Lemma suffix_fresh (l k : list positive) p : p :: l `suffix_of` k -> NoDup k -> p ∉ l.
Proof. intros Hs Hn. apply (suffix_NoDup _ _ Hs) in Hn. by apply NoDup_cons in Hn as [? _]. Qed.

(** The state of a walk over a later part of [ks], seen from the start. *)
Lemma walking_lift ks rest m ig st st1 cfg :
  NoDup ks -> rest `suffix_of` ks ->
  clients st1 = clients st -> oplog st1 = oplog st ->
  (forall p, live st1 p = live st p) ->
  (forall p, gone st1 p = gone st p) ->
  (forall p, inbox st1 p = inbox st p ++
     (if bool_decide (p ∈ ks /\ p ≠ ig /\ p ∉ rest) then [m] else [])) ->
  walking rest m ig st1 cfg -> walking ks m ig st cfg.
Proof.
  intros Hnd Hsuf Hc Ho Hl Hg Hi [Wc Wo Wl Wg Wi Wk]. split.
  - by rewrite Wc.
  - by rewrite Wo.
  - intros p. by rewrite Wl.
  - intros p. by rewrite Wg.
  - intros p. rewrite Wi, Hi, <- app_assoc. f_equal.
    pose proof (suffix_elem_of _ _ p Hsuf) as Hin.
    destruct cfg.1 as [|k m' ig' rest2]; simpl.
    + repeat case_bool_decide; simpl; try done; exfalso;
        destruct (decide (p ∈ rest)); naive_solver.
    + destruct Wk as (_ & _ & _ & Hs2).
      pose proof (suffix_elem_of _ _ p Hs2) as Hin2.
      assert (Hk : p ∉ rest -> p ≠ k /\ p ∉ rest2).
      { intros Hn. split; [intros ->; apply Hn, Hin2; by left|].
        intros H. apply Hn, Hin2. by right. }
      repeat case_bool_decide; simpl; try done; exfalso;
        destruct (decide (p ∈ rest)); naive_solver.
  - destruct cfg.1 as [|k m' ig' rest2]; [done|].
    destruct Wk as (? & ? & ? & Hs2). do 3 (split; [done|]). by etrans.
Qed.

Lemma send_walk_spec ks m ig st :
  NoDup ks -> (forall p, p ∈ ks -> p ≠ ig -> live st p = true) ->
  exists cfg, send_walk ks m ig st = Some cfg /\ walking ks m ig st cfg.
Proof.
  revert st. induction ks as [|k ks IH]; intros st Hnd Hlive.
  - exists (AtSelect, st). split; [done|]. split; simpl; try done.
    intros p. by rewrite app_nil_r.
  - apply NoDup_cons in Hnd as [Hk Hnd]. simpl.
    destruct (decide (k = ig)) as [->|Hne].
    + destruct (IH st Hnd) as (cfg & Hrun & Hw).
      { intros p Hp. apply Hlive. by right. }
      exists cfg. split; [done|].
      apply (walking_lift (ig :: ks) ks m ig st st cfg); try done.
      * by apply NoDup_cons.
      * by apply suffix_cons_r.
      * intros p. rewrite bool_decide_eq_false_2, app_nil_r; [done|].
        intros (H1 & H2 & H3). apply elem_of_cons in H1 as [?|?]; done.
    + destruct (live_open st k) as (cl & Hcl & Hopen); [apply Hlive; [by left|done]|].
      rewrite Hcl. simpl.
      destruct (chan_send m (send cl)) as [c| |] eqn:Hsend.
      * destruct (chan_send_taken _ _ _ Hsend) as (_ & Hc & Hs).
        set (st1 := set_client k _ st).
        destruct (IH st1 Hnd) as (cfg & Hrun & Hw).
        { intros p Hp Hpi. unfold st1. rewrite set_client_live.
          rewrite decide_False by (by intros ->). apply Hlive; [by right|done]. }
        exists cfg. split; [done|].
        apply (walking_lift (k :: ks) ks m ig st st1 cfg); try done.
        -- by apply NoDup_cons.
        -- by apply suffix_cons_r.
        -- intros p. unfold st1. rewrite set_client_live. case_decide as Hp; [|done].
           subst p. simpl. rewrite Hc. unfold live. by rewrite Hcl, Hopen.
        -- intros p. unfold st1. rewrite set_client_gone. case_decide as Hp; [|done].
           subst p. simpl. rewrite Hc. unfold gone. by rewrite Hcl, Hopen.
        -- intros p. unfold st1. rewrite set_client_inbox. case_decide as Hp.
           ++ subst p. simpl. rewrite Hs. unfold inbox. rewrite Hcl.
              rewrite bool_decide_eq_true_2; [done|]. split; [by left|done].
           ++ rewrite bool_decide_eq_false_2, app_nil_r; [done|].
              intros (H1 & H2 & H3). apply elem_of_cons in H1 as [?|?]; done.
      * exists (AtSend k m ig ks, st). split; [done|]. split; simpl; try done.
        intros p. rewrite bool_decide_eq_false_2, app_nil_r; [done|].
        intros (H1 & H2 & H3 & H4). apply elem_of_cons in H1 as [?|?]; done.
      * unfold chan_send in Hsend. rewrite Hopen in Hsend.
        by repeat case_match.
Qed.

Lemma receive_spec q st :
  exists st', receive q st = Some st' /\
    clients st' = clients st /\ oplog st' = oplog st /\
    (forall p, live st' p = live st p) /\ (forall p, gone st' p = gone st p) /\
    (forall p, inbox st' p = inbox st p).
Proof.
  unfold receive. destruct (heap st !! q) as [cl|] eqn:Hcl; [|by exists st].
  eexists. split; [done|]. do 2 (split; [done|]).
  split; [|split]; intros p.
  - rewrite set_client_live. case_decide as Hp; [|done]. subst p. simpl.
    rewrite closed_recv. unfold live. by rewrite Hcl.
  - rewrite set_client_gone. case_decide as Hp; [|done]. subst p. simpl.
    rewrite closed_recv. unfold gone. by rewrite Hcl.
  - rewrite set_client_inbox. case_decide as Hp; [|done]. subst p. simpl.
    rewrite sent_recv. unfold inbox. by rewrite Hcl.
Qed.

Lemma arrive_spec ks m ig st cfg q :
  NoDup ks -> (forall p, p ∈ ks -> p ≠ ig -> live st p = true) ->
  walking ks m ig st cfg ->
  exists cfg',
    arrive q cfg = Some cfg' /\ walking ks m ig st cfg' /\
    length (pending cfg'.1) <= length (pending cfg.1) /\
    (forall k m' ig' rest, cfg.1 = AtSend k m' ig' rest -> q = k ->
       length (pending cfg'.1) < length (pending cfg.1)).
Proof.
  intros Hnd Hlive Hw. destruct cfg as [ctl st1]. unfold arrive. simpl.
  destruct (receive_spec q st1) as (st2 & Hrecv & Rc & Ro & Rl & Rg & Ri).
  assert (Hplain : walking ks m ig st (ctl, st2)).
  { destruct Hw as [Wc Wo Wl Wg Wi Wk]. simpl in *. split; simpl; try done.
    - by rewrite Rc.
    - by rewrite Ro.
    - intros p. by rewrite Rl.
    - intros p. by rewrite Rg.
    - intros p. by rewrite Ri. }
  destruct ctl as [|k m' ig' rest].
  { rewrite Hrecv. simpl. exists (AtSelect, st2).
    split; [done|]. split; [done|]. split; [done|]. by intros. }
  destruct (decide (q = k)) as [->|Hne].
  2:{ rewrite Hrecv. simpl. eexists. split; [done|]. split; [done|]. simpl.
      split; [done|]. intros ? ? ? ? [= <- _ _ _] ?. done. }
  destruct Hw as [Wc Wo Wl Wg Wi Wk]. simpl in *.
  destruct Wk as (-> & -> & Hkig & Hsuf).
  assert (Hkin : k ∈ ks) by (apply (suffix_elem_of _ _ k Hsuf); by left).
  pose proof (suffix_fresh _ _ _ Hsuf Hnd) as Hkrest.
  assert (Hrsuf : rest `suffix_of` ks) by (etrans; [by apply suffix_cons_r|done]).
  destruct (live_open st1 k) as (cl & Hcl & Hopen); [rewrite Wl; by apply Hlive|].
  rewrite Hcl. simpl. set (st3 := set_client k _ st1).
  assert (L3 : forall p, live st3 p = live st p).
  { intros p. unfold st3. rewrite set_client_live. case_decide as Hp; [|done].
    subst p. simpl. rewrite <- Wl. unfold live. by rewrite Hcl. }
  destruct (send_walk_spec rest m ig st3) as (cfg' & Hrun & Hw').
  { by apply (suffix_NoDup _ _ Hrsuf). }
  { intros p Hp Hpi. rewrite L3. apply Hlive; [|done].
    by apply (suffix_elem_of _ _ p Hrsuf). }
  exists cfg'. split; [done|]. split.
  - apply (walking_lift ks rest m ig st st3 cfg'); try done.
    + intros p. unfold st3. rewrite set_client_gone. case_decide as Hp; [|done].
      subst p. simpl. rewrite <- Wg. unfold gone. by rewrite Hcl.
    + intros p. unfold st3. rewrite set_client_inbox. case_decide as Hp.
      * subst p. simpl. specialize (Wi k). unfold inbox in Wi. rewrite Hcl in Wi.
        rewrite Wi. rewrite bool_decide_eq_false_2 by naive_solver.
        rewrite app_nil_r. rewrite bool_decide_eq_true_2; done.
      * rewrite Wi. f_equal. erewrite bool_decide_ext; [done|]. naive_solver.
  - assert (Hlen : length (pending cfg'.1) <= length rest).
    { destruct Hw' as [_ _ _ _ _ Wk']. destruct cfg'.1 as [|k2 ? ? rest2]; simpl; [lia|].
      destruct Wk' as (_ & _ & _ & Hs'). by apply suffix_length in Hs'. }
    split; [lia|]. intros. lia.
Qed.

Lemma arrivals_spec ks m ig st qs cfg :
  NoDup ks -> (forall p, p ∈ ks -> p ≠ ig -> live st p = true) ->
  walking ks m ig st cfg ->
  exists cfg', arrivals qs cfg = Some cfg' /\ walking ks m ig st cfg'.
Proof.
  intros Hnd Hlive. revert cfg. induction qs as [|q qs IH]; intros cfg Hw.
  - by exists cfg.
  - destruct (arrive_spec ks m ig st cfg q Hnd Hlive Hw) as (cfg1 & Ha & Hw1 & _).
    destruct (IH cfg1 Hw1) as (cfg' & Hr & Hw').
    exists cfg'. simpl. by rewrite Ha.
Qed.

Lemma serve_spec ks m ig st n cfg :
  NoDup ks -> (forall p, p ∈ ks -> p ≠ ig -> live st p = true) ->
  walking ks m ig st cfg -> length (pending cfg.1) <= n ->
  exists st', serve n cfg = Some (AtSelect, st') /\ walking ks m ig st (AtSelect, st').
Proof.
  intros Hnd Hlive. revert cfg. induction n as [|n IH]; intros [ctl st1] Hw Hlen.
  - destruct ctl; simpl in *; [by exists st1|lia].
  - destruct ctl as [|k m' ig' rest]; [by exists st1|].
    destruct (arrive_spec ks m ig st _ k Hnd Hlive Hw) as (cfg1 & Ha & Hw1 & _ & Hlt).
    specialize (Hlt k m' ig' rest eq_refl eq_refl). simpl in Hlt, Hlen.
    destruct (IH cfg1 Hw1) as (st' & Hs & Hw'); [lia|].
    exists st'. change (serve (S n) (AtSend k m' ig' rest, st1))
      with (arrive k (AtSend k m' ig' rest, st1) ≫= serve n).
    by rewrite Ha.
Qed.

Lemma send_walk_parked ks m ig st :
  NoDup ks ->
  (forall p, p ∈ ks -> p ≠ ig -> live st p = true /\ accepts st p = true) ->
  exists st', send_walk ks m ig st = Some (AtSelect, st').
Proof.
  revert st. induction ks as [|k ks IH]; intros st Hnd H; [by exists st|].
  apply NoDup_cons in Hnd as [Hk Hnd]. simpl.
  destruct (decide (k = ig)) as [->|Hne].
  - apply IH; [done|]. intros p Hp. apply H. by right.
  - destruct (H k) as [Hl Ha]; [by left|done|].
    destruct (live_open st k Hl) as (cl & Hcl & Hopen).
    unfold accepts in Ha. rewrite Hcl in Ha. rewrite Hcl. simpl.
    rewrite (chan_send_accepts _ _ Hopen Ha). apply IH; [done|].
    intros p Hp Hpi. assert (p ≠ k) by (by intros ->).
    rewrite set_client_live, decide_False, set_client_accepts by done.
    apply H; [by right|done].
Qed.

(** With a closed queue still to visit, [send] does not get back to the
    select. *)
Lemma send_walk_stale ks m ig st p cfg :
  p ∈ ks -> p ≠ ig -> live st p = false ->
  send_walk ks m ig st = Some cfg -> stuck_on p cfg.
Proof.
  revert st. induction ks as [|k ks IH]; intros st Hin Hne Hl Hrun.
  - by apply elem_of_nil in Hin.
  - simpl in Hrun. apply elem_of_cons in Hin.
    destruct (decide (k = ig)) as [->|Hk].
    + apply (IH st); [by destruct Hin|done..].
    + destruct (heap st !! k) as [cl|] eqn:Hcl; [|done]. simpl in Hrun.
      assert (Hpk : closed (send cl) = false -> p ≠ k).
      { intros Hopen ->. unfold live in Hl. by rewrite Hcl, Hopen in Hl. }
      destruct (chan_send m (send cl)) as [c| |] eqn:Hsend; [| |done].
      * destruct (chan_send_taken _ _ _ Hsend) as (Hopen & _ & _).
        apply Hpk in Hopen. apply IH in Hrun; [done|by destruct Hin|done|].
        by rewrite set_client_live, decide_False.
      * pose proof (Hpk (chan_send_parks _ _ Hsend)) as Hp.
        injection Hrun as <-. unfold stuck_on. simpl. by destruct Hin.
Qed.

Lemma arrive_stale p q cfg cfg' :
  stuck_on p cfg -> arrive q cfg = Some cfg' -> stuck_on p cfg'.
Proof.
  destruct cfg as [ctl st1]. unfold stuck_on, arrive. simpl.
  destruct ctl as [|k m ig rest]; [done|]. intros (Hin & Hne & Hl).
  destruct (decide (q = k)) as [->|Hqk].
  - destruct (heap st1 !! k) as [cl|] eqn:Hcl; [|done]. simpl. intros Hrun.
    apply (send_walk_stale _ _ _ _ p) in Hrun; [done..|].
    rewrite set_client_live. case_decide as Hp; [|done]. subst p. simpl.
    unfold live in Hl. by rewrite Hcl in Hl.
  - destruct (receive_spec q st1) as (st2 & -> & _ & _ & Rl & _). simpl.
    intros [= <-]. simpl. by rewrite Rl.
Qed.

Lemma arrivals_stale p qs cfg cfg' :
  stuck_on p cfg -> arrivals qs cfg = Some cfg' -> cfg'.1 ≠ AtSelect.
Proof.
  revert cfg. induction qs as [|q qs IH]; intros cfg Hs; simpl.
  - intros [= <-]. unfold stuck_on in Hs. by destruct cfg.1.
  - destruct (arrive q cfg) as [cfg1|] eqn:Ha; [|done]. simpl.
    apply IH. by apply (arrive_stale p q cfg).
Qed.

(** When each pump that the manager waits for comes in turn, [send] ends in
    the state that [send_range] gives. *)
Lemma serve_more n cfg st' :
  serve n cfg = Some (AtSelect, st') -> serve (S n) cfg = Some (AtSelect, st').
Proof.
  revert cfg. induction n as [|n IH]; intros [ctl st1].
  - destruct ctl; [done|]. simpl. by intros [=].
  - destruct ctl as [|k m ig rest]; [done|].
    change (serve (S n) (AtSend k m ig rest, st1))
      with (arrive k (AtSend k m ig rest, st1) ≫= serve n).
    change (serve (S (S n)) (AtSend k m ig rest, st1))
      with (arrive k (AtSend k m ig rest, st1) ≫= serve (S n)).
    destruct (arrive k (AtSend k m ig rest, st1)) as [cfg1|]; [|done]. simpl.
    apply IH.
Qed.

Lemma send_range_served ks m ig st st' :
  send_range ks m ig st = Some st' ->
  exists cfg, send_walk ks m ig st = Some cfg /\
              serve (length ks) cfg = Some (AtSelect, st').
Proof.
  revert st. induction ks as [|k ks IH]; intros st H; simpl in H.
  - injection H as <-. by exists (AtSelect, st).
  - simpl. destruct (decide (k = ig)) as [->|Hne].
    + destruct (IH st H) as (cfg & Hw & Hs). exists cfg. split; [done|].
      by apply serve_more.
    + unfold send_to in H. destruct (heap st !! k) as [cl|] eqn:Hcl; [|done].
      simpl in *. destruct (chan_send m (send cl)) as [c| |]; [| |done]; simpl in H.
      * destruct (IH _ H) as (cfg & Hw & Hs). exists cfg. split; [done|].
        by apply serve_more.
      * destruct (IH _ H) as (cfg & Hw & Hs). eexists. split; [done|].
        change (serve (S (length ks)) (AtSend k m ig ks, st))
          with (arrive k (AtSend k m ig ks, st) ≫= serve (length ks)).
        unfold arrive. simpl. rewrite decide_True by done. rewrite Hcl. simpl.
        by rewrite Hw.
Qed.


Lemma served_outside ks ig ctl p : ~ (p ∈ ks /\ p ≠ ig) -> served ks ig ctl p = false.
Proof.
  intros H. destruct ctl; simpl; apply bool_decide_eq_false_2; intros ?; apply H; tauto.
Qed.

Lemma served_done ks ig p : p ∈ ks -> p ≠ ig -> served ks ig AtSelect p = true.
Proof. intros. simpl. by apply bool_decide_eq_true_2. Qed.

(** What [send], begun in [st] over [ks], has done after any arrivals of
    write pumps at their receive. *)
Lemma send_account ks m ig st cfg qs :
  NoDup ks -> (forall p, p ∈ ks -> p ≠ ig -> live st p = true) ->
  send_walk ks m ig st = Some cfg ->
  exists cfg',
    arrivals qs cfg = Some cfg' /\
    clients cfg'.2 = clients st /\ oplog cfg'.2 = oplog st /\
    (forall p, gone cfg'.2 p = gone st p) /\
    (forall p, ~ (p ∈ ks /\ p ≠ ig) -> inbox cfg'.2 p = inbox st p) /\
    (forall p, inbox cfg'.2 p = inbox st p \/ inbox cfg'.2 p = inbox st p ++ [m]) /\
    (cfg'.1 = AtSelect ->
       forall p, p ∈ ks -> p ≠ ig -> inbox cfg'.2 p = inbox st p ++ [m]) /\
    (exists st', serve (length ks) cfg = Some (AtSelect, st') /\
       forall p, p ∈ ks -> p ≠ ig -> inbox st' p = inbox st p ++ [m]) /\
    ((forall p, p ∈ ks -> p ≠ ig -> accepts st p = true) -> cfg.1 = AtSelect).
Proof.
  intros Hnd Hlive Hrun.
  destruct (send_walk_spec ks m ig st Hnd Hlive) as (cfg0 & Hrun0 & Hw).
  rewrite Hrun in Hrun0. injection Hrun0 as <-.
  destruct (arrivals_spec ks m ig st qs cfg Hnd Hlive Hw) as (cfg' & Harr & Hw').
  exists cfg'. split; [done|].
  destruct Hw' as [Wc Wo Wl Wg Wi Wk].
  do 3 (split; [done|]). split; [|split; [|split; [|split]]].
  - intros p Hp. by rewrite Wi, (served_outside _ _ _ _ Hp), app_nil_r.
  - intros p. rewrite Wi. destruct (served ks ig cfg'.1 p); [by right|left].
    by rewrite app_nil_r.
  - intros Hsel p Hp Hne. by rewrite Wi, Hsel, served_done.
  - destruct (serve_spec ks m ig st (length ks) cfg Hnd Hlive Hw) as (st' & Hs & Hw').
    { destruct Hw as [_ _ _ _ _ Hk]. destruct cfg.1 as [|k ? ? rest]; simpl; [lia|].
      destruct Hk as (_ & _ & _ & Hsuf). by apply suffix_length in Hsuf. }
    exists st'. split; [done|]. intros p Hp Hne.
    by rewrite (walk_inbox _ _ _ _ _ Hw'), served_done.
  - intros Hacc. destruct (send_walk_parked ks m ig st Hnd) as (st' & Hp).
    { intros p Hp Hne. split; [by apply Hlive | by apply Hacc]. }
    rewrite Hrun in Hp. by injection Hp as ->.
Qed.

(** * The claims about the announcements *)

Section CaseClaims.

Variable Marshal : Message -> bytes * error.







End CaseClaims.

(** * The reply to a failed upgrade *)




Section HandlerClaims.

Variable Marshal : Message -> bytes * error.


End HandlerClaims.








(** * A closed queue left in the registry *)

(** Where every open queue that [send] visits has its reader waiting, the
    loop does not park. *)
Lemma send_walk_through ks m ig st cfg :
  NoDup ks ->
  (forall q, q ∈ ks -> q ≠ ig -> live st q = true -> accepts st q = true) ->
  send_walk ks m ig st = Some cfg -> cfg.1 = AtSelect.
Proof.
  revert st. induction ks as [|k ks IH]; intros st Hnd H Hrun.
  - by injection Hrun as <-.
  - apply NoDup_cons in Hnd as [Hk Hnd]. simpl in Hrun.
    destruct (decide (k = ig)) as [->|Hne].
    + apply (IH st); [done| |done]. intros q Hq. apply H. by right.
    + destruct (heap st !! k) as [cl|] eqn:Hcl; [|done]. simpl in Hrun.
      destruct (chan_send m (send cl)) as [c| |] eqn:Hsend; [| |done].
      * apply IH in Hrun; [done..|].
        intros q Hq Hqi. assert (q ≠ k) by (by intros ->).
        rewrite set_client_live, decide_False, set_client_accepts by done.
        apply H; [by right|done].
      * pose proof (chan_send_parks _ _ Hsend) as Hopen.
        assert (Ha : accepts st k = true).
        { apply H; [by left|done|]. unfold live. by rewrite Hcl, Hopen. }
        unfold accepts in Ha. rewrite Hcl in Ha.
        by rewrite (chan_send_accepts _ _ Hopen Ha) in Hsend.
Qed.

Lemma send_walk_panics ks m ig st p :
  NoDup ks -> p ∈ ks -> p ≠ ig -> live st p = false ->
  (forall q, q ∈ ks -> q ≠ ig -> live st q = true -> accepts st q = true) ->
  send_walk ks m ig st = None.
Proof.
  intros Hnd Hin Hne Hl H.
  destruct (send_walk ks m ig st) as [cfg|] eqn:Hrun; [|done].
  pose proof (send_walk_stale _ _ _ _ _ _ Hin Hne Hl Hrun) as Hstuck.
  pose proof (send_walk_through _ _ _ _ _ Hnd H Hrun) as Hsel.
  unfold stuck_on in Hstuck. by rewrite Hsel in Hstuck.
Qed.

(** [send] over any arrangement of the keys, when every send has returned,
    is in the state that [send] over the order of [range] gives. *)
Lemma send_range_perm ks m ig st :
  sound st = true -> keys (clients st) ≡ₚ ks ->
  exists st', ClientManager_send m ig st = Some st' /\ send_range ks m ig st = Some st'.
Proof.
  intros Hs Hperm. pose proof (proj1 (sound_spec st) Hs) as Hlive.
  assert (Hmem : forall q, q ∈ ks <-> q ∈ keys (clients st)).
  { intros q. by rewrite Hperm. }
  destruct (send_range_spec ks m ig st) as (h1 & E1 & Hh1).
  { rewrite <- Hperm. apply NoDup_keys. }
  { intros q Hq _. apply Hlive. apply elem_of_keys. by apply Hmem. }
  unfold ClientManager_send.
  destruct (send_range_spec (keys (clients st)) m ig st) as (h2 & E2 & Hh2).
  { apply NoDup_keys. }
  { intros q Hq _. apply Hlive. by apply elem_of_keys. }
  exists (mkState (clients st) h2 (oplog st)). split; [done|]. rewrite E1.
  do 2 f_equal. apply map_eq. intros q. rewrite Hh1, Hh2.
  erewrite bool_decide_ext; [done|]. by rewrite Hmem.
Qed.

(** X5. While the registry holds, besides the ignored Connection, a pointer
    whose queue is closed (or that is no Client), [send] does not return:
    whatever write pumps come to their receive, the manager is never back
    at its select; and where every open queue that it visits has its reader
    waiting, it panics on the send to the closed queue. *)
Theorem send_panics_on_closed_queue (p ignore : ptr) (message : bytes) (st : State) :
  is_Some (clients st !! p) -> p ≠ ignore -> live st p = false ->
  (forall cfg qs cfg',
     send_walk (keys (clients st)) message ignore st = Some cfg ->
     arrivals qs cfg = Some cfg' -> cfg'.1 ≠ AtSelect) /\
  ((forall q, is_Some (clients st !! q) -> q ≠ ignore -> live st q = true ->
      accepts st q = true) ->
   send_walk (keys (clients st)) message ignore st = None).
Proof.
  intros Hin Hne Hl. apply elem_of_keys in Hin. split.
  - intros cfg qs cfg' Hrun. apply (arrivals_stale p).
    by apply (send_walk_stale _ _ _ _ _ _ Hin Hne Hl Hrun).
  - intros H. apply (send_walk_panics _ _ _ _ p); [apply NoDup_keys|done..|].
    intros q Hq. apply H. by apply elem_of_keys.
Qed.

(** X7. In a sound state [send] does not panic in whatever order [range]
    visits the registry. Whatever write pumps come to their receive
    meanwhile, the registry and the ghost record stay as they were and each
    Connection has got the message at most once. When the manager is back
    at its select, each registered Connection other than the ignored one
    has got it exactly once and no other history has changed. It is back
    once each pump that it waits for has come in turn, and the state is
    then the same for every order. *)
Theorem send_any_order (ks qs : list ptr) (message : bytes) (ignore : ptr) (st : State) :
  sound st = true ->
  keys (clients st) ≡ₚ ks ->
  exists cfg cfg' st',
    send_walk ks message ignore st = Some cfg /\
    arrivals qs cfg = Some cfg' /\
    clients cfg'.2 = clients st /\ oplog cfg'.2 = oplog st /\
    (forall p, inbox cfg'.2 p = inbox st p \/ inbox cfg'.2 p = inbox st p ++ [message]) /\
    (cfg'.1 = AtSelect ->
       forall p, inbox cfg'.2 p =
         inbox st p ++
         (if bool_decide (is_Some (clients st !! p) /\ p ≠ ignore) then [message] else [])) /\
    ClientManager_send message ignore st = Some st' /\
    serve (length ks) cfg = Some (AtSelect, st').
Proof.
  intros Hs Hperm. pose proof (proj1 (sound_spec st) Hs) as Hlive.
  assert (Hmem : forall q, q ∈ ks <-> is_Some (clients st !! q)).
  { intros q. by rewrite <- Hperm, elem_of_keys. }
  assert (Hnd : NoDup ks) by (rewrite <- Hperm; apply NoDup_keys).
  assert (Hl : forall p, p ∈ ks -> p ≠ ignore -> live st p = true).
  { intros p Hp _. apply Hlive. by apply Hmem. }
  destruct (send_range_perm ks message ignore st Hs Hperm) as (st' & Hsend & Hrange).
  destruct (send_range_served _ _ _ _ _ Hrange) as (cfg & Hrun & Hserve).
  destruct (send_account _ _ _ _ cfg qs Hnd Hl Hrun)
    as (cfg' & Harr & Hc & Ho & _ & Hout & Hmost & Hdone & _ & _).
  exists cfg, cfg', st'. do 5 (split; [done|]). split; [|done].
  intros Hsel p. case_bool_decide as Hp.
  - destruct Hp as [Hp Hne]. apply (Hdone Hsel); [by apply Hmem|done].
  - rewrite app_nil_r. apply Hout. intros [Hp1 Hp2]. apply Hp. split; [by apply Hmem|done].
Qed.

Section StaleClaims.

Variable Marshal : Message -> bytes * error.

(** X6. With a registered pointer whose queue is closed (or that is no
    Client), no case of the manager's loop that sends or closes is ever
    finished. Any broadcast panics, and so does the unregister of that
    pointer. The register of any other Connection and the unregister of any
    registered Connection never bring the manager back to its select,
    whatever write pumps come to their receive; where every open queue of
    the registry has its reader waiting, they panic. *)
Theorem manager_panics_on_closed_queue (p : ptr) (st : State) :
  is_Some (clients st !! p) -> live st p = false ->
  (forall message, begin_case Marshal (Broadcast message) st = None) /\
  begin_case Marshal (Unregister p) st = None /\
  (forall conn cfg qs cfg', conn ≠ p ->
     begin_case Marshal (Register conn) st = Some cfg ->
     arrivals qs cfg = Some cfg' -> cfg'.1 ≠ AtSelect) /\
  (forall conn cfg qs cfg', is_Some (clients st !! conn) ->
     begin_case Marshal (Unregister conn) st = Some cfg ->
     arrivals qs cfg = Some cfg' -> cfg'.1 ≠ AtSelect) /\
  ((forall q, is_Some (clients st !! q) -> live st q = true -> accepts st q = true) ->
   (forall conn, conn ≠ p -> begin_case Marshal (Register conn) st = None) /\
   (forall conn, is_Some (clients st !! conn) ->
      begin_case Marshal (Unregister conn) st = None)).
Proof.
  intros Hin Hl.
  assert (Hreg : forall conn, conn ≠ p -> p ∈ keys (clients (insert_client conn st))).
  { intros conn Hne. apply elem_of_keys. simpl. by rewrite lookup_insert_ne. }
  assert (Hunreg : forall conn st1, conn ≠ p -> close_send conn st = Some st1 ->
    p ∈ keys (clients (delete_client conn st1)) /\
    live (delete_client conn st1) p = false /\
    (forall q, q ≠ conn -> live (delete_client conn st1) q = live st q /\
                           accepts (delete_client conn st1) q = accepts st q) /\
    (forall q, q ∈ keys (clients (delete_client conn st1)) ->
               q ≠ conn /\ is_Some (clients st !! q))).
  { intros conn st1 Hne E. split; [|split; [|split]].
    - apply elem_of_keys. simpl. rewrite lookup_delete_ne by done.
      by rewrite (close_send_registry _ _ _ E).
    - unfold live. simpl. by rewrite (close_send_other _ _ _ _ E) by done.
    - intros q Hq. unfold live, accepts. simpl.
      by rewrite (close_send_other _ _ _ _ E) by done.
    - intros q Hq. apply elem_of_keys in Hq. simpl in Hq.
      rewrite (close_send_registry _ _ _ E) in Hq.
      destruct (decide (q = conn)) as [->|Hqc].
      + rewrite lookup_delete_eq in Hq. by destruct Hq.
      + by rewrite lookup_delete_ne in Hq. }
  split; [|split; [|split; [|split; [|intros H; split]]]].
  - intros m. simpl. rewrite (broadcast_range_stale _ m _ p); [done| |done].
    by apply elem_of_keys.
  - simpl. destruct Hin as [v ->]. by rewrite close_send_stale.
  - intros conn cfg qs cfg' Hne Hrun. apply (arrivals_stale p).
    exact (send_walk_stale _ (Marshal joined_envelope).1 conn (insert_client conn st) p cfg
             (Hreg conn Hne) (not_eq_sym Hne) Hl Hrun).
  - intros conn cfg qs cfg' [v Hv] Hrun. simpl in Hrun. rewrite Hv in Hrun.
    destruct (decide (conn = p)) as [->|Hne]; [by rewrite close_send_stale in Hrun|].
    destruct (close_send conn st) as [st1|] eqn:E; [|done]. simpl in Hrun.
    destruct (Hunreg conn st1 Hne E) as (Hp & Hlp & _ & _).
    apply (arrivals_stale p).
    apply (send_walk_stale _ _ _ _ _ _ Hp (not_eq_sym Hne) Hlp Hrun).
  - intros conn Hne.
    apply (send_walk_panics _ (Marshal joined_envelope).1 conn (insert_client conn st) p);
      [apply NoDup_keys|by apply (Hreg conn)|by apply not_eq_sym|done|].
    intros q Hq Hqc. apply (H q). apply elem_of_keys in Hq. simpl in Hq.
    by rewrite lookup_insert_ne in Hq.
  - intros conn [v Hv]. simpl. rewrite Hv.
    destruct (decide (conn = p)) as [->|Hne]; [by rewrite close_send_stale|].
    destruct (close_send conn st) as [st1|] eqn:E; [|done]. simpl.
    destruct (Hunreg conn st1 Hne E) as (Hp & Hlp & Hsame & Hkeys).
    apply (send_walk_panics _ _ _ _ p);
      [apply NoDup_keys|done|by apply not_eq_sym|done|].
    intros q Hq Hqc. destruct (Hsame q Hqc) as [-> ->]. apply H.
    by apply Hkeys in Hq as [_ ?].
Qed.

End StaleClaims.

(** * The books of the handler *)

Section HandlerBooks.

Variable Marshal : Message -> bytes * error.






End HandlerBooks.

(** A byte that is not UTF-8, a two-byte character, and U+2028. *)
Example escape_invalid :
  escape (String (ascii_of_nat 255) "a") = replacement +:+ "a".
Proof. reflexivity. Qed.

Example escape_two_bytes :
  escape (String (ascii_of_nat 195) (String (ascii_of_nat 169) "a"))
  = String (ascii_of_nat 195) (String (ascii_of_nat 169) "a").
Proof. reflexivity. Qed.

Example escape_line_separator :
  escape (String (ascii_of_nat 226) (String (ascii_of_nat 128)
            (String (ascii_of_nat 168) EmptyString)))
  = String backslash "u2028".
Proof. reflexivity. Qed.

Example escape_truncated :
  escape (String (ascii_of_nat 226) (String (ascii_of_nat 128) EmptyString))
  = replacement +:+ replacement.
Proof. reflexivity. Qed.

Lemma send_panics_on_closed_queue_witness :
  is_Some (clients stale !! 2%positive) /\ live stale 2%positive = false /\
  forall cfg, send_walk (keys (clients stale)) "x" 1%positive stale = Some cfg ->
              cfg.1 ≠ AtSelect.
Proof.
  split; [by eexists|]. split; [reflexivity|].
  intros cfg Hrun.
  destruct (send_panics_on_closed_queue 2%positive 1%positive "x" stale) as [H _];
    [by eexists|done|reflexivity|].
  exact (H cfg [] cfg Hrun eq_refl).
Defined.

Lemma manager_panics_on_closed_queue_witness :
  is_Some (clients stale !! 2%positive) /\ live stale 2%positive = false /\
  begin_case json_Marshal (Broadcast "x") stale = None /\
  begin_case json_Marshal (Unregister 2%positive) stale = None.
Proof.
  split; [by eexists|]. split; [reflexivity|].
  destruct (manager_panics_on_closed_queue json_Marshal 2%positive stale)
    as (H1 & H2 & _); [by eexists|reflexivity|].
  split; [apply H1|apply H2].
Defined.

Lemma send_any_order_witness :
  sound room = true /\
  keys (clients room) ≡ₚ [1%positive; 2%positive; 3%positive] /\
  exists cfg cfg' st',
    send_walk [1%positive; 2%positive; 3%positive] "x" 2%positive room = Some cfg /\
    arrivals [3%positive] cfg = Some cfg' /\
    ClientManager_send "x" 2%positive room = Some st' /\
    serve 3 cfg = Some (AtSelect, st').
Proof.
  split; [reflexivity|]. split; [apply keys_room|].
  destruct (send_any_order [1%positive; 2%positive; 3%positive] [3%positive] "x"
              2%positive room eq_refl keys_room)
    as (cfg & cfg' & st' & H1 & H2 & _ & _ & _ & _ & H3 & H4).
  by exists cfg, cfg', st'.
Defined.
